(** * Earthstar: conflict resolution of the SQLite store and the sync engines

    A shallow embedding of [StoreSqlite] (the [items] table, [items],
    [getItem], [ingestItem], [set], [_syncFrom], [sync]) and of [sync.ts]
    ([syncLocalAndHttp], [Syncer.sync]), followed by the properties of the
    specification stated over it.

    Conventions.
    - A JavaScript string is a [string]; a character stands for one code
      unit.  Signatures, numerals and URLs are ASCII, where the code-unit
      order of JavaScript, the byte order of SQLite's BINARY collation and
      [String.compare] coincide.
    - A timestamp is an integer [Z].  [Number.prototype.toString] prints an
      integer of magnitude below 10^21 in plain decimal, which covers every
      integer a JavaScript number holds exactly.
    - [Date.now()] is the argument [now] (milliseconds) of the operation
      that reads the clock. *)

From Stdlib Require Import Ascii DecimalString.
From Stdlib Require Decimal DecimalPos.
From stdpp Require Import gmap strings list fin_maps functions sorting.

Open Scope Z_scope.

(** ** JavaScript primitives the source relies on *)

Module Js.

(** [String(n)] for an integer [n] that a double holds exactly (below
    2^53 in magnitude): all the decimal digits of [n]. *)
Definition number_toString (n : Z) : string :=
  NilZero.string_of_int (Z.to_int n).

(** [[n, s].toString()], that is [[n, s].join(",")]. *)
Definition array_toString (n : Z) (s : string) : string :=
  number_toString n +:+ "," +:+ s.

(** [a < b] and [a <= b] on two strings: code units, left to right.
    [a <= b] is evaluated as the negation of [b < a]. *)
Definition string_lt (a b : string) : bool := String.ltb a b.
Definition string_le (a b : string) : bool := negb (string_lt b a).

(** [[n1, s1] <= [n2, s2]].  The relational operators turn an array
    operand into a primitive with [toString]; two strings are then
    compared as strings. *)
Definition array_le (n1 : Z) (s1 : string) (n2 : Z) (s2 : string) : bool :=
  string_le (array_toString n1 s1) (array_toString n2 s2).

(** [x || d] on an optional string: the empty string is falsy too. *)
Definition string_or (x : option string) (d : string) : string :=
  match x with
  | Some s => if decide (s = EmptyString) then d else s
  | None => d
  end.

(** [x || 0] on an optional number. *)
Definition number_or_zero (x : option Z) : Z := default 0 x.

(** [s.endsWith(t)]. *)
Definition endsWith (s t : string) : bool :=
  let n := String.length s in
  let m := String.length t in
  bool_decide ((m ≤ n)%nat ∧ String.substring (n - m) m s = t).

(** [s.slice(k)] for [k >= 0]. *)
Definition slice_from (k : nat) (s : string) : string :=
  String.substring k (String.length s - k) s.

(** [s.split(c).join(r)]: every occurrence of the character [c] is
    replaced by [r]. *)
Fixpoint split_join (c : ascii) (r : string) (s : string) : string :=
  match s with
  | EmptyString => EmptyString
  | String a s' =>
      (if decide (a = c) then r else String a EmptyString) +:+ split_join c r s'
  end.

(** How a call completes: it returns a value or throws. *)
Inductive outcome (A : Type) : Type :=
| Returned (a : A)
| Thrown (msg : string).
Global Arguments Returned {A} a.
Global Arguments Thrown {A} msg.

End Js.

(** ** SQLite operators used by the statements of the store *)

Module Sql.

(** [LIKE] patterns, after the ESCAPE character is resolved. *)
Inductive like_tok : Type :=
| LikeAny                (* % *)
| LikeOne                (* _ *)
| LikeChar (c : ascii).  (* a literal, possibly escaped *)

(** Reads a pattern with escape character [esc].  An escape character at
    the very end of the pattern makes the pattern match nothing. *)
Fixpoint like_tokens (esc : ascii) (p : string) : option (list like_tok) :=
  match p with
  | EmptyString => Some []
  | String c p' =>
      if decide (c = esc) then
        match p' with
        | EmptyString => None
        | String c2 p'' => cons (LikeChar c2) <$> like_tokens esc p''
        end
      else if decide (c = "%"%char) then cons LikeAny <$> like_tokens esc p'
      else if decide (c = "_"%char) then cons LikeOne <$> like_tokens esc p'
      else cons (LikeChar c) <$> like_tokens esc p'
  end.

(** LIKE ignores the case of ASCII letters (the default of SQLite). *)
Definition ascii_lower (c : ascii) : ascii :=
  let n := Ascii.N_of_ascii c in
  if bool_decide (65 ≤ n ≤ 90)%N then Ascii.ascii_of_N (n + 32) else c.

Fixpoint like_match (ts : list like_tok) (s : string) : bool :=
  match ts with
  | [] => bool_decide (s = EmptyString)
  | LikeChar c :: ts' =>
      match s with
      | String d s' => bool_decide (ascii_lower c = ascii_lower d) && like_match ts' s'
      | EmptyString => false
      end
  | LikeOne :: ts' =>
      match s with
      | String _ s' => like_match ts' s'
      | EmptyString => false
      end
  | LikeAny :: ts' =>
      (fix any (s : string) : bool :=
         like_match ts' s ||
         match s with
         | String _ s' => any s'
         | EmptyString => false
         end) s
  end.

(** [s LIKE p ESCAPE esc]. *)
Definition like (s p : string) (esc : ascii) : bool :=
  match like_tokens esc p with
  | Some ts => like_match ts s
  | None => false
  end.

End Sql.

(** ** The store: [StoreSqlite] *)

Module Store.

(** An item, as the rows of the table and the callers have it. *)
Record Item : Type := mkItem {
  schema : string;
  workspace : string;
  key : string;
  value : string;
  timestamp : Z;
  author : string;
  signature : string;
}.

Global Instance Item_eq_dec : EqDecision Item.
Proof. solve_decision. Defined.

(** The argument of [set]: [schema] and [timestamp] may be left out. *)
Record ItemToSet : Type := mkItemToSet {
  its_schema : option string;
  its_key : string;
  its_value : string;
  its_author : string;
  its_authorSecret : string;
  its_timestamp : option Z;
}.

(** The options of a query; [None] is a property left undefined.
    [q_includeHistory] is tested for truthiness only, so [false] stands
    for an undefined property as well. *)
Record QueryOpts : Type := mkQueryOpts {
  q_key : option string;
  q_lowKey : option string;
  q_highKey : option string;
  q_prefix : option string;
  q_limit : option Z;
  q_includeHistory : bool;
}.

(** [{}] *)
Definition noQuery : QueryOpts := mkQueryOpts None None None None None false.

(** The columns of a row other than its primary key [(key, author)]. *)
Record Row : Type := mkRow {
  row_schema : string;
  row_workspace : string;
  row_value : string;
  row_timestamp : Z;
  row_signature : string;
}.

(** The table [items], PRIMARY KEY(key, author): a finite map from the
    primary key to the remaining columns. *)
Abbreviation Table := (gmap (string * string) Row).

Definition row_of (i : Item) : Row :=
  mkRow (schema i) (workspace i) (value i) (timestamp i) (signature i).

Definition item_of (ka : string * string) (r : Row) : Item :=
  mkItem (row_schema r) (row_workspace r) ka.1 (row_value r)
         (row_timestamp r) ka.2 (row_signature r).

(** A scan of the whole table. *)
Definition rows (t : Table) : list Item :=
  (λ kr, item_of kr.1 kr.2) <$> map_to_list t.

Record StoreSqlite : Type := mkStore {
  store_workspace : string;
  db : Table;
}.

(** [new StoreSqlite(workspace)] on a fresh database. *)
Definition newStore (ws : string) : StoreSqlite := mkStore ws ∅.

(** The collaborators imported from [./storeUtils]. *)
Class Validator : Type := {
  (** the shape of the fields and the verification of the signature *)
  itemWellFormed : Item → bool;
  (** the detached signature of an item under a secret *)
  sign : Item → string → string;
}.

(** Modelled from the spec: [itemIsValid] of [./storeUtils], whose source
    is not at hand.  An item is invalid when its fields are malformed,
    its signature is bad, or its timestamp exceeds the future cutoff; the
    cutoff defaults to ten minutes after now, in microseconds, and an
    item exactly at the cutoff is valid. *)
Definition itemIsValid {V : Validator} (item : Item) (futureCutoff : option Z)
    (now : Z) : bool :=
  let cutoff := default ((now + 10 * 60 * 1000) * 1000) futureCutoff in
  itemWellFormed item && bool_decide (timestamp item ≤ cutoff).

(** Modelled from the spec: [signItem] of [./storeUtils], whose source is
    not at hand.  It returns the item with its signature filled in. *)
Definition signItem {V : Validator} (item : Item) (secret : string) : Item :=
  mkItem (schema item) (workspace item) (key item) (value item)
         (timestamp item) (author item) (sign item secret).

(** Which row supplies the bare columns of a [GROUP BY] query whose only
    aggregate is [MAX(timestamp)], when a later row of the scan ties with
    the row held so far: SQLite takes them from one of the rows that
    reach the maximum and leaves open which. *)
Class Sqlite : Type := {
  tie_takes_later : Item → Item → bool;
}.

(** *** Queries *)

Definition backslash : ascii := Ascii.ascii_of_nat 92.

(** The prefix as bound to [:prefix]: [_] and [%] preceded by a backslash. *)
Definition escape_prefix (p : string) : string :=
  Js.split_join "%"%char (String backslash "%")
    (Js.split_join "_"%char (String backslash "_") p).

(** The WHERE clause, a conjunction of the filters present.  All of them
    read the column [key] only. *)
Definition matches (q : QueryOpts) (k : string) : bool :=
  match q_key q with Some x => bool_decide (k = x) | None => true end
  && match q_lowKey q with Some l => String.leb l k | None => true end
  && match q_highKey q with Some h => String.ltb k h | None => true end
  && match q_prefix q with
     | Some p => Sql.like k (escape_prefix p +:+ "%") backslash
     | None => true
     end.

(** [ORDER BY timestamp DESC, signature DESC]: [a] is listed no later
    than [b]. *)
Definition by_recency (a b : Item) : bool :=
  bool_decide (timestamp b < timestamp a)
  || (bool_decide (timestamp a = timestamp b)
      && String.leb (signature b) (signature a)).

(** [ORDER BY key ASC, timestamp DESC, signature DESC]. *)
Definition by_key_recency (a b : Item) : bool :=
  String.ltb (key a) (key b)
  || (bool_decide (key a = key b) && by_recency a b).

(** [ORDER BY]; rows equal on every sort column come out in an order SQL
    leaves open, here the one of the merge. *)
Definition order_by (le : Item → Item → bool) (l : list Item) : list Item :=
  merge_sort (λ a b, Is_true (le a b)) l.

(** [LIMIT :limit], present only for a positive [limit]. *)
Definition apply_limit (q : QueryOpts) (l : list Item) : list Item :=
  match q_limit q with
  | Some n => if bool_decide (0 < n) then take (Z.to_nat n) l else l
  | None => l
  end.

(** The row of a group that holds [MAX(timestamp)], scanning [r] after
    the row [best] held so far. *)
Definition max_row {E : Sqlite} (best r : Item) : Item :=
  if bool_decide (timestamp best < timestamp r) then r
  else if bool_decide (timestamp r < timestamp best) then best
  else if tie_takes_later best r then r else best.

(** [GROUP BY key] with the bare columns of the [MAX(timestamp)] row. *)
Definition group_step {E : Sqlite} (g : gmap string Item) (r : Item)
    : gmap string Item :=
  match g !! key r with
  | Some best => <[key r := max_row best r]> g
  | None => <[key r := r]> g
  end.

Definition group_by_key {E : Sqlite} (l : list Item) : list Item :=
  (map_to_list (foldl group_step ∅ l)).*2.

Definition items {E : Sqlite} (this : StoreSqlite) (query : QueryOpts)
    : list Item :=
  let scanned := filter (λ i, Is_true (matches query (key i))) (rows (db this)) in
  let selected :=
    if q_includeHistory query then scanned else group_by_key scanned in
  apply_limit query (order_by by_key_recency selected).

(** [{...query, includeHistory: false}] *)
Definition without_history (q : QueryOpts) : QueryOpts :=
  mkQueryOpts (q_key q) (q_lowKey q) (q_highKey q) (q_prefix q) (q_limit q) false.

Definition keys {E : Sqlite} (this : StoreSqlite) (query : QueryOpts)
    : list string :=
  key <$> items this (without_history query).

Definition values {E : Sqlite} (this : StoreSqlite) (query : QueryOpts)
    : list string :=
  value <$> items this query.

(** [SELECT * FROM items WHERE key = :key
     ORDER BY timestamp DESC, signature DESC LIMIT 1] *)
Definition getItem (this : StoreSqlite) (k : string) : option Item :=
  head (order_by by_recency
          (filter (λ i, key i = k) (rows (db this)))).

Definition getValue (this : StoreSqlite) (k : string) : option string :=
  value <$> getItem this k.

(** *** Writes *)

(** [SELECT * FROM items WHERE key = :key AND author = :author
     ORDER BY timestamp DESC LIMIT 1]: the primary key admits one row. *)
Definition existingSameAuthorSameKey (this : StoreSqlite) (item : Item)
    : option Item :=
  item_of (key item, author item) <$> db this !! (key item, author item).

(** [INSERT OR REPLACE INTO items ... VALUES ...] *)
Definition insert_or_replace (this : StoreSqlite) (item : Item) : StoreSqlite :=
  mkStore (store_workspace this)
          (<[(key item, author item) := row_of item]> (db this)).

Definition ingestItem {V : Validator} (this : StoreSqlite) (item : Item)
    (futureCutoff : option Z) (now : Z) : StoreSqlite * bool :=
  if negb (itemIsValid item futureCutoff now) then (this, false)
  else
    match existingSameAuthorSameKey this item with
    | Some existing =>
        if Js.array_le (timestamp item) (signature item)
                       (timestamp existing) (signature existing)
        then (this, false)
        else (insert_or_replace this item, true)
    | None => (insert_or_replace this item, true)
    end.

(** The sum and the maximum are those of the integers, which is what
    JavaScript computes while the timestamps stay below 2^53. *)
Definition set {V : Validator} (this : StoreSqlite) (itemToSet : ItemToSet)
    (now : Z) : StoreSqlite * bool :=
  let requested := Js.number_or_zero (its_timestamp itemToSet) in
  let item :=
    mkItem (Js.string_or (its_schema itemToSet) "kw.1")
           (store_workspace this)
           (its_key itemToSet)
           (its_value itemToSet)
           (if bool_decide (0 < requested) then requested else now * 1000)
           (its_author itemToSet)
           EmptyString in
  let existingItemTimestamp :=
    Js.number_or_zero (timestamp <$> getItem this (key item)) in
  let item :=
    mkItem (schema item) (workspace item) (key item) (value item)
           (Z.max (timestamp item) (existingItemTimestamp + 1))
           (author item) (signature item) in
  let signedItem := signItem item (its_authorSecret itemToSet) in
  ingestItem this signedItem (Some (timestamp item)) now.

(** *** Sync between two stores of one process *)

Import Js.

(** Stores are objects: a reference names one, and [===] compares
    references. *)
Abbreviation StoreRef := nat.
Abbreviation Heap := (StoreRef → StoreSqlite).

Inductive Direction : Type := Push | Pull | Both.

Record SyncOpts : Type := mkSyncOpts {
  direction : option Direction;
  existing : option bool;
  live : option bool;
}.

Record SyncResults : Type := mkSyncResults {
  numPushed : Z;
  numPulled : Z;
}.

(** [{includeHistory: true}] *)
Definition withHistory : QueryOpts := mkQueryOpts None None None None None true.

(** The loop of [_syncFrom]: ingest one by one, counting the successes. *)
Definition ingest_counting {V : Validator} (now : Z)
    (acc : StoreSqlite * Z) (item : Item) : StoreSqlite * Z :=
  let '(s, ok) := ingestItem acc.1 item None now in
  (s, if ok then acc.2 + 1 else acc.2).

(** [h this]._syncFrom([h otherStore], existing, live) *)
Definition _syncFrom {V : Validator} {E : Sqlite} (h : Heap)
    (this otherStore : StoreRef) (existing live : bool) (now : Z)
    : Heap * outcome Z :=
  if live then (h, Thrown "live sync not implemented yet")
  else if existing then
    let pulled := items (h otherStore) withHistory in
    let '(s, numSuccess) := foldl (ingest_counting now) (h this, 0) pulled in
    (<[this := s]> h, Returned numSuccess)
  else (h, Returned 0).

(** [h this].sync([h otherStore], opts) *)
Definition sync {V : Validator} {E : Sqlite} (h : Heap)
    (this otherStore : StoreRef) (opts : option SyncOpts) (now : Z)
    : Heap * outcome SyncResults :=
  if decide (otherStore = this) then (h, Returned (mkSyncResults 0 0))
  else if negb (bool_decide (store_workspace (h this) = store_workspace (h otherStore)))
  then (h, Returned (mkSyncResults 0 0))
  else
    let direction := default Both (opts ≫= direction) in
    let existing := default true (opts ≫= existing) in
    let live := default false (opts ≫= live) in
    let '(h1, pulled) :=
      match direction with
      | Pull | Both => _syncFrom h this otherStore existing live now
      | Push => (h, Returned 0)
      end in
    match pulled with
    | Thrown e => (h1, Thrown e)
    | Returned numPulled =>
        let '(h2, pushed) :=
          match direction with
          | Push | Both => _syncFrom h1 otherStore this existing live now
          | Pull => (h1, Returned 0)
          end in
        match pushed with
        | Thrown e => (h2, Thrown e)
        | Returned numPushed => (h2, Returned (mkSyncResults numPushed numPulled))
        end
    end.

End Store.

(** ** Sync over HTTP: [sync.ts] *)

Module Remote.

Import Js.

(** The part of [IStorage] that [sync.ts] calls.  [S] is the state of the
    storage and [D] what it takes for a document. *)
Class IStorage (S D : Type) : Type := {
  workspace : S → string;
  (** [storage.ingestDocument(doc)] *)
  ingestDocument : S → D → S * bool;
  (** [storage.documents({ includeHistory })] *)
  documents : S → bool → list D;
}.

(** *** The sync state *)

Inductive SyncStatus : Type := Idle | Syncing | Success | Failure.

Global Instance SyncStatus_eq_dec : EqDecision SyncStatus.
Proof. solve_decision. Defined.

Record Pub : Type := mkPub {
  domain : string;
  pub_syncState : SyncStatus;
  pub_lastSync : Z;
}.

Record SyncState : Type := mkSyncState {
  pubs : list Pub;
  syncState : SyncStatus;
  lastSync : Z;
}.

(** *** The world around the syncer *)

(** A decoded JSON body: an array of documents, or a value that is not
    iterable (an object, a number, a boolean, null). *)
Inductive Json (D : Type) : Type :=
| JsonArray (docs : list D)
| JsonValue (raw : string).
Global Arguments JsonArray {D} docs.
Global Arguments JsonValue {D} raw.

Inductive Request (D : Type) : Type :=
| GET (url : string)
| POST (url : string) (body : list D).
Global Arguments GET {D} url.
Global Arguments POST {D} url body.

(** [json = None]: [resp.json()] rejects, the body is not JSON. *)
Record Response (D : Type) : Type := mkResponse {
  status : Z;
  json : option (Json D);
}.
Global Arguments mkResponse {D} status json.
Global Arguments status {D} r.
Global Arguments json {D} r.

(** The promise of [fetch]: rejected when the server cannot be reached. *)
Inductive Fetched (D : Type) : Type :=
| Rejected (reason : string)
| Resolved (resp : Response D).
Global Arguments Rejected {D} reason.
Global Arguments Resolved {D} resp.

(** What the outside observes, in the order it happens.  The lines of
    [console.log] are left out. *)
Inductive Event (D : Type) : Type :=
| Fetch (req : Request D)
| ConsoleError (msg : string)
| Notify (st : SyncState)
| Sleep (ms : Z).
Global Arguments Fetch {D} req.
Global Arguments ConsoleError {D} msg.
Global Arguments Notify {D} st.
Global Arguments Sleep {D} ms.

(** The network and the clock answer as functions of what happened so
    far. *)
Class Network (D : Type) : Type := {
  fetch : list (Event D) → Request D → Fetched D;
  date_now : list (Event D) → Z;
}.

(** A syncer: its storage, its state (one mutable object, shared with
    the observers of [onChange]) and the events so far. *)
Record World (S D : Type) : Type := mkWorld {
  storage : S;
  state : SyncState;
  trace : list (Event D);
}.
Global Arguments mkWorld {S D} storage state trace.
Global Arguments storage {S D} w.
Global Arguments state {S D} w.
Global Arguments trace {S D} w.

(** [new Syncer(store)] *)
Definition newSyncer {S D : Type} (store : S) : World S D :=
  mkWorld store (mkSyncState [] Idle 0) [].

Record PullStats : Type := mkPullStats {
  numIngested : Z;
  numIgnored : Z;
  numTotal : Z;
}.

(** [resultStats]; [null] is [None].  [pushStats] is the property the
    push phase adds. *)
Record ResultStats (D : Type) : Type := mkResultStats {
  pull : option PullStats;
  push : option (Json D);
  pushStats : option (Json D);
}.
Global Arguments mkResultStats {D} pull push pushStats.
Global Arguments pull {D} r.
Global Arguments push {D} r.
Global Arguments pushStats {D} r.

Section Program.
Context {S D : Type} {St : IStorage S D} {Net : Network D}.

(** Computations over the world that may throw. *)
Definition M (A : Type) : Type := World S D → outcome A * World S D.

Global Instance M_ret : MRet M := λ A a w, (Returned a, w).

Global Instance M_bind : MBind M := λ A B k m w,
  match m w with
  | (Returned a, w') => k a w'
  | (Thrown e, w') => (Thrown e, w')
  end.

Definition throw {A : Type} (e : string) : M A := λ w, (Thrown e, w).

Definition emit (e : Event D) : M unit :=
  λ w, (Returned tt, mkWorld (storage w) (state w) (trace w ++ [e])).

Definition getStorage : M S := λ w, (Returned (storage w), w).
Definition putStorage (s : S) : M unit :=
  λ w, (Returned tt, mkWorld s (state w) (trace w)).
Definition getState : M SyncState := λ w, (Returned (state w), w).
Definition putState (st : SyncState) : M unit :=
  λ w, (Returned tt, mkWorld (storage w) st (trace w)).

(** [await fetch(...)]: the request is observed, then answered. *)
Definition await_fetch (req : Request D) : M (Fetched D) :=
  λ w, (Returned (fetch (trace w) req),
        mkWorld (storage w) (state w) (trace w ++ [Fetch req])).

(** [Date.now()] *)
Definition now : M Z := λ w, (Returned (date_now (trace w)), w).

(** [this.onChange.send(this.state)] *)
Definition notify : M unit := λ w, emit (Notify (state w)) w.

(** [for (let x of l) { ... }] with the local variables in [b]. *)
Fixpoint for_of {A B : Type} (l : list A) (body : B → A → M B) (b : B) : M B :=
  match l with
  | [] => mret b
  | x :: l' => b' ← body b x; for_of l' body b'
  end.

(** *** One pass against one pub *)

Definition ensureTrailingSlash (url : string) : string :=
  if endsWith url "/" then url else url +:+ "/".

Definition urlGetDocuments (domain ws : string) : string :=
  domain +:+ "earthstar-api/v1/workspace/" +:+ slice_from 2 ws +:+ "/documents".

Definition urlPostDocuments : string → string → string := urlGetDocuments.

(** [await resp.json()], used as an array of documents. *)
Definition json_docs (resp : Response D) : M (list D) :=
  match json resp with
  | Some (JsonArray docs) => mret docs
  | Some (JsonValue _) => throw "TypeError: docs is not iterable"
  | None => throw "SyntaxError: invalid json response body"
  end.

(** [await resp2.json()] *)
Definition json_any (resp : Response D) : M (Json D) :=
  match json resp with
  | Some v => mret v
  | None => throw "SyntaxError: invalid json response body"
  end.

Definition could_not_connect (reason : string) : M unit :=
  emit (ConsoleError "ERROR: could not connect to server") ;;
  emit (ConsoleError reason).

(** The body of the loop over the pulled documents. *)
Definition ingest_pulled (stats : PullStats) (doc : D) : M PullStats :=
  s ← getStorage;
  let '(s', ok) := ingestDocument s doc in
  putStorage s' ;;
  mret (if ok
        then mkPullStats (numIngested stats + 1) (numIgnored stats) (numTotal stats)
        else mkPullStats (numIngested stats) (numIgnored stats + 1) (numTotal stats)).

(** The pull, once the server has answered: a 404 leaves the counters
    at zero, any other answer is decoded and ingested. *)
Definition pull_documents (resp : Response D) : M PullStats :=
  if bool_decide (status resp = 404) then mret (mkPullStats 0 0 0)
  else
    docs ← json_docs resp;
    for_of docs ingest_pulled (mkPullStats 0 0 (Z.of_nat (length docs))).

Definition syncLocalAndHttp (domain : string) : M (ResultStats D) :=
  let resultStats := mkResultStats None None None in
  let domain := ensureTrailingSlash domain in
  (* pull from server *)
  s ← getStorage;
  got ← await_fetch (GET (urlGetDocuments domain (workspace s)));
  match got with
  | Rejected e => could_not_connect e ;; mret resultStats
  | Resolved resp =>
      stats ← pull_documents resp;
      let resultStats := mkResultStats (Some stats) None None in
      (* push to server *)
      s ← getStorage;
      got2 ← await_fetch (POST (urlPostDocuments domain (workspace s))
                               (documents s true));
      match got2 with
      | Rejected e => could_not_connect e ;; mret resultStats
      | Resolved resp2 =>
          if bool_decide (status resp2 = 404) then mret resultStats
          else if bool_decide (status resp2 = 403) then mret resultStats
          else
            v ← json_any resp2;
            mret (mkResultStats (pull resultStats) (push resultStats) (Some v))
      end
  end.

(** *** The syncer *)

Definition setPubs (st : SyncState) (ps : list Pub) : SyncState :=
  mkSyncState ps (syncState st) (lastSync st).
Definition setSyncState (st : SyncState) (x : SyncStatus) : SyncState :=
  mkSyncState (pubs st) x (lastSync st).
Definition setLastSync (st : SyncState) (t : Z) : SyncState :=
  mkSyncState (pubs st) (syncState st) t.

Definition removePub (url : string) : M unit :=
  let url := ensureTrailingSlash url in
  st ← getState;
  let numBefore := length (pubs st) in
  let kept := filter (λ pub, domain pub ≠ url) (pubs st) in
  putState (setPubs st kept) ;;
  let numAfter := length kept in
  if decide (numBefore ≠ numAfter) then notify else mret tt.

Definition addPub (d : string) : M unit :=
  let d := ensureTrailingSlash d in
  st ← getState;
  if bool_decide (0 < length (filter (λ pub, domain pub = d) (pubs st)))%nat
  then mret tt
  else
    putState (setPubs st (pubs st ++ [mkPub d Idle 0])) ;;
    notify.

(** [pub.x = ...] on the pub at index [i] of [this.state.pubs]. *)
Definition updatePub (i : nat) (f : Pub → Pub) : M unit :=
  st ← getState;
  match pubs st !! i with
  | Some pub => putState (setPubs st (<[i := f pub]> (pubs st)))
  | None => mret tt
  end.

(** The body of the loop of [sync], on the pub at index [i]; the local
    counters are [(numSuccessfulPubs, numFailedPubs)]. *)
Definition sync_pub (counters : Z * Z) (i : nat) : M (Z * Z) :=
  updatePub i (λ pub, mkPub (domain pub) Syncing (pub_lastSync pub)) ;;
  notify ;;
  st ← getState;
  let d := default EmptyString (domain <$> pubs st !! i) in
  resultStats ← syncLocalAndHttp d;
  counters' ←
    (if bool_decide (pull resultStats = None ∧ push resultStats = None)
     then
       updatePub i (λ pub, mkPub (domain pub) Failure (pub_lastSync pub)) ;;
       mret (counters.1, counters.2 + 1)
     else
       t ← now;
       updatePub i (λ pub, mkPub (domain pub) (pub_syncState pub) t) ;;
       updatePub i (λ pub, mkPub (domain pub) Success (pub_lastSync pub)) ;;
       mret (counters.1 + 1, counters.2));
  notify ;;
  mret counters'.

Definition sync : M unit :=
  st ← getState;
  putState (setSyncState st Syncing) ;;
  notify ;;
  st ← getState;
  counters ← for_of (seq 0 (length (pubs st))) sync_pub (0, 0);
  (* wait a moment so the user can keep track of what is happening *)
  emit (Sleep 150) ;;
  t ← now;
  st ← getState;
  putState (setLastSync st t) ;;
  st ← getState;
  putState (setSyncState st
              (if bool_decide (0 < counters.1) then Success
               else if bool_decide (0 < counters.2) then Failure
               else Idle)) ;;
  notify.

End Program.

(** [StoreSqlite] behind the interface: [ingestDocument] is [ingestItem]
    with the default cutoff, [documents] is [items]; the clock reads
    [now] throughout. *)
Definition StoreSqlite_storage {V : Store.Validator} {E : Store.Sqlite} (now : Z)
    : IStorage Store.StoreSqlite Store.Item := {|
  workspace := Store.store_workspace;
  ingestDocument s doc := Store.ingestItem s doc None now;
  documents s includeHistory :=
    Store.items s (if includeHistory then Store.withHistory else Store.noQuery);
|}.

End Remote.

(** ** Concrete collaborators and inputs for the examples *)

Module Fixtures.

Import Js Store.

(** A validator that accepts every item and signs with a tag. *)
Definition lenient : Validator := {|
  itemWellFormed := λ _, true;
  sign := λ item secret, secret +:+ ":" +:+ value item;
|}.

(** Ties in a group keep the row scanned first. *)
Definition keep_first : Sqlite := {| tie_takes_later := λ _ _, false |}.

Definition doc (k a : string) (t : Z) (sig : string) : Item :=
  mkItem "kw.1" "//garden" k "v" t a sig.

(** Ties in a group keep the row that comes first in the order of the
    primary key, the one of the least author: what SQLite does when it
    walks the index of the primary key and keeps the first row that
    reaches the maximum. *)
Definition first_in_key_order : Sqlite :=
  {| tie_takes_later := λ best r, String.ltb (author r) (author best) |}.

(** Two items of one author under one key, at timestamps 9 and 10. *)
Definition nine : Item := doc "k" "alice" 9 "sig9".
Definition ten : Item := doc "k" "alice" 10 "sig10".

(** The same in microseconds since the epoch: the last instant of fifteen
    digits and the first of sixteen, both in September 2001. *)
Definition fifteen : Item := doc "k" "alice" 999999999999999 "sigA".
Definition sixteen : Item := doc "k" "alice" 1000000000000000 "sigB".

Definition empty : StoreSqlite := newStore "//garden".
Definition holds_nine : StoreSqlite := insert_or_replace empty nine.
Definition holds_fifteen : StoreSqlite := insert_or_replace empty fifteen.

(** A request to set the key of [nine] again, with a timestamp in the
    past, and one that leaves the timestamp to the clock. *)
Definition past_request : ItemToSet :=
  mkItemToSet None "k" "v2" "alice" "secret" (Some 5).
Definition plain_request : ItemToSet :=
  mkItemToSet None "k" "v2" "alice" "secret" None.

(** Three stores: 0 holds [nine], 1 is empty in the same workspace, the
    others are empty in another workspace. *)
Definition garden_heap : Heap := λ r,
  match r with
  | O => holds_nine
  | S O => empty
  | _ => newStore "//orchard"
  end.

Definition live_opts : SyncOpts := mkSyncOpts None None (Some true).

(** A second key, a second author, and a query for the first row only. *)
Definition jay : Item := doc "j" "alice" 12 "sigJ".
Definition by_bob : Item := doc "k" "bob" 9 "sigB".
Definition two_keys : StoreSqlite := insert_or_replace holds_nine jay.
Definition two_authors : StoreSqlite := insert_or_replace holds_nine by_bob.
Definition first_only : QueryOpts :=
  mkQueryOpts None None None None (Some 1) false.

(** A syncer over the store that holds [nine], its clock at 0. *)
Definition garden_storage : Remote.IStorage StoreSqlite Item :=
  Remote.StoreSqlite_storage (V:=lenient) (E:=keep_first) 0.

(** Three pubs.  The first knows no workspace and drops the connection
    on a POST; the second cannot be reached; the third knows no workspace
    and answers a POST with statistics.  The clock counts the events. *)
Definition three_pubs : Remote.Network Item := {|
  Remote.fetch _ req :=
    match req with
    | Remote.GET url =>
        if String.prefix "https://one.example/" url
           || String.prefix "https://three.example/" url
        then Remote.Resolved (Remote.mkResponse 404 None)
        else Remote.Rejected "ECONNREFUSED"
    | Remote.POST url _ =>
        if String.prefix "https://three.example/" url
        then Remote.Resolved
               (Remote.mkResponse 200 (Some (Remote.JsonValue "{numIngested: 1}")))
        else Remote.Rejected "ECONNRESET"
    end;
  Remote.date_now tr := Z.of_nat (length tr);
|}.

Definition garden_syncer : Remote.World StoreSqlite Item :=
  Remote.newSyncer holds_nine.

(** The syncer after [addPub] of the first two pubs. *)
Definition two_pubs : Remote.World StoreSqlite Item :=
  Remote.mkWorld holds_nine
    (Remote.mkSyncState
       [Remote.mkPub "https://one.example/" Remote.Idle 0;
        Remote.mkPub "https://two.example/" Remote.Idle 0]
       Remote.Idle 0)
    [].

(** A pub that answers a GET with two documents and a POST with
    statistics, and one whose answer to a GET is not JSON. *)
Definition serves_two : Remote.Network Item := {|
  Remote.fetch _ req :=
    match req with
    | Remote.GET _ =>
        Remote.Resolved (Remote.mkResponse 200 (Some (Remote.JsonArray [ten; jay])))
    | Remote.POST _ _ =>
        Remote.Resolved
          (Remote.mkResponse 200 (Some (Remote.JsonValue "{numIngested: 0}")))
    end;
  Remote.date_now tr := Z.of_nat (length tr);
|}.

Definition garbled : Remote.Network Item := {|
  Remote.fetch _ req :=
    match req with
    | Remote.GET _ => Remote.Resolved (Remote.mkResponse 200 None)
    | Remote.POST _ _ => Remote.Rejected "ECONNRESET"
    end;
  Remote.date_now tr := Z.of_nat (length tr);
|}.

End Fixtures.

(** ** Notions used to state the properties *)

Module Notions.

Import Js Store.

Section Numerals.

Import Decimal.
Local Open Scope N_scope.

(** The value of a numeral read from its most significant digit, after
    the digits already read have given [acc]. *)
Fixpoint horner (u : Decimal.uint) (acc : N) : N :=
  match u with
  | Nil => acc
  | D0 u => horner u (10 * acc)
  | D1 u => horner u (10 * acc + 1)
  | D2 u => horner u (10 * acc + 2)
  | D3 u => horner u (10 * acc + 3)
  | D4 u => horner u (10 * acc + 4)
  | D5 u => horner u (10 * acc + 5)
  | D6 u => horner u (10 * acc + 6)
  | D7 u => horner u (10 * acc + 7)
  | D8 u => horner u (10 * acc + 8)
  | D9 u => horner u (10 * acc + 9)
  end.

Definition digit_char (d : N) : ascii := ascii_of_N (48 + d).

(** The numeral of a timestamp that is not negative. *)
Definition numeral (n : Z) : Decimal.uint :=
  match n with
  | Zpos p => Pos.to_uint p
  | _ => D0 Nil
  end.

End Numerals.

(** Offering items to [ingestItem] one at a time. *)
Definition ingest_each {V : Validator} (this : StoreSqlite) (l : list Item)
    (now : Z) : StoreSqlite :=
  foldl (λ s d, (ingestItem s d None now).1) this l.

(** The text the rejection test of [ingestItem] compares. *)
Definition rendering (r : Row) : string :=
  array_toString (row_timestamp r) (row_signature r).

(** What one valid item does to the row of its key and author. *)
Definition offer (slot : option Row) (d : Item) : option Row :=
  match slot with
  | Some r => if String.leb (rendering (row_of d)) (rendering r)
              then Some r else Some (row_of d)
  | None => Some (row_of d)
  end.

Definition with_slot (this : StoreSqlite) (ka : string * string)
    (slot : option Row) : StoreSqlite :=
  match slot with
  | Some r => mkStore (store_workspace this) (<[ka := r]> (db this))
  | None => this
  end.

(** What the groups hold after scanning [l]: under each key met, a row of
    that key from [l] whose timestamp no row of the key in [l] exceeds. *)
Definition groups_of (l : list Item) (g : gmap string Item) : Prop :=
  ∀ k,
    match g !! k with
    | Some r =>
        key r = k ∧ r ∈ l ∧ ∀ r', r' ∈ l → key r' = k → timestamp r' ≤ timestamp r
    | None => ∀ r', r' ∈ l → key r' ≠ k
    end.

(** An integer that a double holds exactly, as do its neighbours, and
    that [String] prints with all its digits. *)
Definition safe_integer (n : Z) : Prop := - 2 ^ 53 < n < 2 ^ 53.

(** A store whose timestamps are all such integers. *)
Definition safe_store (this : StoreSqlite) : Prop :=
  Forall safe_integer (timestamp <$> rows (db this)).

(** The primary key of an item. *)
Definition slot_of (d : Item) : string * string := (key d, author d).

(** Whether [ingestItem], with the default cutoff, keeps [d] when the row
    under its primary key is [mine]. *)
Definition keeps {V : Validator} (now : Z) (mine : option Row) (d : Item) : bool :=
  itemIsValid d None now &&
  match mine with
  | Some m =>
      negb (array_le (timestamp d) (signature d) (row_timestamp m) (row_signature m))
  | None => true
  end.

(** What a store that holds [mine] under the primary key [ka] holds there
    after it has been offered the row [theirs] of another store. *)
Definition merge_slot {V : Validator} (now : Z) (ka : string * string)
    (mine theirs : option Row) : option Row :=
  match theirs with
  | Some r => if keeps now mine (item_of ka r) then Some r else mine
  | None => mine
  end.

(** A text with its ASCII capitals turned into small letters. *)
Fixpoint lower (s : string) : string :=
  match s with
  | EmptyString => EmptyString
  | String c s' => String (Sql.ascii_lower c) (lower s')
  end.

(** Whether the character [c] occurs in [s]. *)
Fixpoint occurs (c : ascii) (s : string) : bool :=
  match s with
  | EmptyString => false
  | String a s' => bool_decide (a = c) || occurs c s'
  end.

(** A query that sets [key] only, and one that sets [prefix] only. *)
Definition of_key (k : string) : QueryOpts :=
  mkQueryOpts (Some k) None None None None false.
Definition of_prefix (p : string) : QueryOpts :=
  mkQueryOpts None None None (Some p) None false.

(** A query with its [limit] removed. *)
Definition unlimited (q : QueryOpts) : QueryOpts :=
  mkQueryOpts (q_key q) (q_lowKey q) (q_highKey q) (q_prefix q) None
              (q_includeHistory q).

Section Passes.

Import Remote.
Context {S D : Type} {St : IStorage S D} {Net : Network D}.

Implicit Types (w : World S D).

(** A computation that leaves the sync state alone and only adds to the
    trace. *)
Definition frames {A} (m : M A) : Prop :=
  ∀ w o w', m w = (o, w') → state w' = state w ∧ trace w `prefix_of` trace w'.

(** The pub [p] at index [i] has been visited between [w] and [w'] and
    left as [p']: a pass against its domain, begun with the pub marked as
    syncing, returned [rs]; [p'] is a failure, with the last-sync time of
    [p], when [pull] and [push] are both null, and a success stamped with
    the clock at the end of the pass otherwise. *)
Definition visited w w' (i : nat) (p p' : Pub) : Prop :=
  domain p' = domain p ∧
  ∃ rs wa wb,
    syncLocalAndHttp (domain p) wa = (Returned rs, wb) ∧
    pubs (state wa) !! i = Some (mkPub (domain p) Syncing (pub_lastSync p)) ∧
    trace w `prefix_of` trace wa ∧ trace wb `prefix_of` trace w' ∧
    ((pull rs = None ∧ push rs = None) ∧
       pub_syncState p' = Failure ∧ pub_lastSync p' = pub_lastSync p
     ∨ ¬ (pull rs = None ∧ push rs = None) ∧
       pub_syncState p' = Success ∧ pub_lastSync p' = date_now (trace wb)).

End Passes.

End Notions.

(** * Numerals and their order as texts *)

Section Digits.

Import Decimal Notions.
Local Open Scope N_scope.

Lemma of_lu_revapp_horner u : ∀ l,
  DecimalPos.Unsigned.of_lu (revapp u l) = horner u (DecimalPos.Unsigned.of_lu l).
Proof.
  induction u as [|u IH|u IH|u IH|u IH|u IH|u IH|u IH|u IH|u IH|u IH];
    intros l; simpl revapp; simpl horner;
    [done|rewrite IH; f_equal; simpl DecimalPos.Unsigned.of_lu; lia..].
Qed.

Lemma horner_to_uint p : horner (Pos.to_uint p) 0 = Npos p.
Proof.
  rewrite <-(DecimalPos.Unsigned.of_to p), DecimalPos.Unsigned.of_uint_alt.
  unfold Decimal.rev. by rewrite of_lu_revapp_horner.
Qed.

(** A numeral that is not empty: its first digit and the rest. *)
Lemma uint_head u :
  let d := DecimalPos.Unsigned.hd u in
  let u' := DecimalPos.Unsigned.tl u in
  u ≠ Nil →
  d < 10 ∧
  nb_digits u = Datatypes.S (nb_digits u') ∧
  NilEmpty.string_of_uint u = String (digit_char d) (NilEmpty.string_of_uint u') ∧
  ∀ acc, horner u acc = horner u' (10 * acc + d).
Proof.
  destruct u; intros d u' Hne; [done|..]; subst d u';
    (split; [simpl; lia|]; split; [done|]; split; [done|]; intros acc; simpl;
     f_equal; lia).
Qed.

Lemma digit_char_compare d1 d2 :
  d1 < 10 → d2 < 10 → Ascii.compare (digit_char d1) (digit_char d2) = (d1 ?= d2).
Proof.
  intros H1 H2. unfold Ascii.compare, digit_char.
  rewrite !N_ascii_embedding by lia.
  destruct (N.compare_spec (48 + d1) (48 + d2)), (N.compare_spec d1 d2);
    try done; lia.
Qed.

Lemma next_digit_compare a1 a2 d1 d2 :
  d1 < 10 → d2 < 10 →
  (10 * a1 + d1 ?= 10 * a2 + d2)
  = match a1 ?= a2 with Eq => d1 ?= d2 | c => c end.
Proof.
  intros H1 H2.
  destruct (N.compare_spec a1 a2), (N.compare_spec d1 d2),
    (N.compare_spec (10 * a1 + d1) (10 * a2 + d2)); try done; lia.
Qed.

(** Numerals of equal length compare as texts the way their values
    compare as numbers; the texts that follow them decide a draw. *)
Lemma numerals_compare n : ∀ u1 u2 a1 a2 t1 t2,
  nb_digits u1 = n → nb_digits u2 = n →
  match a1 ?= a2 with
  | Eq => (NilEmpty.string_of_uint u1 +:+ t1
           ?= NilEmpty.string_of_uint u2 +:+ t2)%string
  | c => c
  end
  = match horner u1 a1 ?= horner u2 a2 with
    | Eq => (t1 ?= t2)%string
    | c => c
    end.
Proof.
  induction n as [|n IH]; intros u1 u2 a1 a2 t1 t2 H1 H2.
  { destruct u1, u2; try discriminate. done. }
  destruct (uint_head u1) as (Hd1 & Hn1 & Hs1 & Hh1); [by destruct u1|].
  destruct (uint_head u2) as (Hd2 & Hn2 & Hs2 & Hh2); [by destruct u2|].
  rewrite Hh1, Hh2, Hs1, Hs2.
  rewrite <-(IH (DecimalPos.Unsigned.tl u1) (DecimalPos.Unsigned.tl u2)) by lia.
  rewrite next_digit_compare by done.
  destruct (a1 ?= a2); [|done..].
  simpl. rewrite digit_char_compare by done.
  by destruct (DecimalPos.Unsigned.hd u1 ?= DecimalPos.Unsigned.hd u2).
Qed.

Lemma number_toString_numeral n :
  (0 ≤ n)%Z → Js.number_toString n = NilEmpty.string_of_uint (numeral n).
Proof.
  destruct n as [|p|p]; [done| |lia]. intros _.
  unfold Js.number_toString. simpl.
  pose proof (DecimalPos.Unsigned.to_uint_nonnil p) as Hne.
  unfold NilZero.string_of_uint. by destruct (Pos.to_uint p).
Qed.

Lemma horner_numeral n : (0 ≤ n)%Z → horner (numeral n) 0 = Z.to_N n.
Proof.
  destruct n as [|p|p]; [done| |lia]. intros _. apply horner_to_uint.
Qed.

Lemma length_string_of_uint u :
  String.length (NilEmpty.string_of_uint u) = nb_digits u.
Proof. induction u; simpl; by f_equal. Qed.

(** Between two timestamps whose renderings have the same length, the
    test of [ingestItem] is the order on pairs: timestamps as integers,
    then signatures as strings. *)
Lemma array_le_same_length n1 s1 n2 s2 :
  (0 ≤ n1)%Z → (0 ≤ n2)%Z →
  String.length (Js.number_toString n1) = String.length (Js.number_toString n2) →
  Js.array_le n1 s1 n2 s2
  = bool_decide ((n1 < n2)%Z ∨ (n1 = n2 ∧ String.leb s1 s2 = true)).
Proof.
  intros H1 H2 Hlen.
  rewrite !number_toString_numeral, !length_string_of_uint in Hlen by done.
  unfold Js.array_le, Js.string_le, Js.string_lt, Js.array_toString, String.ltb.
  rewrite !number_toString_numeral by done.
  pose proof (numerals_compare _ (numeral n2) (numeral n1) 0 0
                ("," +:+ s2) ("," +:+ s1) (eq_sym Hlen) eq_refl) as Hcmp.
  simpl in Hcmp. rewrite Hcmp, !horner_numeral by done.
  change (String.append EmptyString s1) with s1.
  change (String.append EmptyString s2) with s2.
  destruct (N.compare_spec (Z.to_N n2) (Z.to_N n1)) as [Heq|Hlt|Hgt].
  - assert (n1 = n2) as -> by lia.
    unfold String.leb. rewrite (String.compare_antisym s2 s1).
    destruct (s1 ?= s2)%string eqn:Hs; simpl; symmetry.
    + apply bool_decide_eq_true_2. by right.
    + apply bool_decide_eq_true_2. by right.
    + apply bool_decide_eq_false_2. intros [?|[_ ?]]; [lia|done].
  - symmetry. apply bool_decide_eq_false_2. intros [?|[? _]]; lia.
  - symmetry. apply bool_decide_eq_true_2. left. lia.
Qed.

End Digits.

(** * Properties of the store *)

Section StoreProperties.

Import Js Store Fixtures Notions.
Context {V : Validator} {E : Sqlite}.

Lemma string_lt_compare_refl a : (a ?= a)%string = Eq.
Proof.
  induction a as [|c a IH]; simpl; [done|].
  unfold Ascii.compare. by rewrite N.compare_refl.
Qed.

Lemma string_lt_irrefl a : string_lt a a = false.
Proof. unfold string_lt, String.ltb. by rewrite string_lt_compare_refl. Qed.

Lemma array_le_refl n s : array_le n s n s = true.
Proof. unfold array_le, string_le. by rewrite string_lt_irrefl. Qed.

(** What [ingestItem] decides, case by case. *)
Lemma ingestItem_cases this item cutoff now :
  ingestItem this item cutoff now =
    if negb (itemIsValid item cutoff now) then (this, false)
    else match db this !! (key item, author item) with
         | Some r =>
             if array_le (timestamp item) (signature item)
                         (row_timestamp r) (row_signature r)
             then (this, false)
             else (insert_or_replace this item, true)
         | None => (insert_or_replace this item, true)
         end.
Proof.
  unfold ingestItem, existingSameAuthorSameKey.
  destruct (negb _); [done|]. by destruct (db this !! _).
Qed.

(** The identical item offered a second time is turned down. *)
Lemma ingest_identical_twice this item cutoff now :
  ingestItem (ingestItem this item cutoff now).1 item cutoff now
  = ((ingestItem this item cutoff now).1, false).
Proof.
  rewrite (ingestItem_cases this).
  destruct (negb (itemIsValid item cutoff now)) eqn:Hv; simpl.
  { rewrite ingestItem_cases. by rewrite Hv. }
  destruct (db this !! (key item, author item)) as [r|] eqn:Hr.
  - destruct (array_le _ _ _ _) eqn:Hle; simpl.
    + rewrite ingestItem_cases, Hv, Hr. by rewrite Hle.
    + rewrite ingestItem_cases, Hv. simpl. rewrite lookup_insert_eq. simpl.
      by rewrite array_le_refl.
  - simpl. rewrite ingestItem_cases, Hv. simpl. rewrite lookup_insert_eq. simpl.
    by rewrite array_le_refl.
Qed.

(** C10: whenever [ingestItem] returns false, for an invalid item as for
    a stale or duplicate one, the store it leaves is the store it found:
    no row is inserted, replaced or deleted. *)
Theorem ingest_rejection_leaves_store this item futureCutoff now this' :
  ingestItem this item futureCutoff now = (this', false) → this' = this.
Proof.
  rewrite ingestItem_cases. intros H.
  destruct (negb _); [by inversion H|].
  destruct (db this !! _) as [r|]; [|by inversion H].
  destruct (array_le _ _ _ _); by inversion H.
Qed.

(** Where the renderings of the two timestamps have the same length,
    [ingestItem] turns a valid item down exactly when its pair is below or
    equal to the pair of the row, timestamps compared as integers. *)
Lemma ingestItem_same_length this item futureCutoff now r :
  itemIsValid item futureCutoff now = true →
  db this !! (key item, author item) = Some r →
  0 ≤ timestamp item → 0 ≤ row_timestamp r →
  String.length (number_toString (timestamp item))
  = String.length (number_toString (row_timestamp r)) →
  ingestItem this item futureCutoff now =
    if bool_decide (timestamp item < row_timestamp r
                    ∨ (timestamp item = row_timestamp r
                       ∧ String.leb (signature item) (row_signature r) = true))
    then (this, false)
    else (insert_or_replace this item, true).
Proof.
  intros Hv Hr H1 H2 Hlen.
  rewrite ingestItem_cases, Hv, Hr. simpl.
  by rewrite array_le_same_length.
Qed.

(** C1, evaluated where it fails: the store holds an item of timestamp 9
    and the same author offers the same key at timestamp 10.  The pair
    (10, sig10) is above (9, sig9), yet [ingestItem] turns the newer item
    down, whatever the validator, the cutoff and the clock: the two pairs
    are compared through their renderings, and the text 10,sig10 sorts
    before 9,sig9.  The same happens between the microsecond timestamps
    999999999999999 and 1000000000000000. *)
Theorem ingest_ten_after_nine_turned_down futureCutoff now :
  (timestamp nine < timestamp ten ∧
   existingSameAuthorSameKey holds_nine ten = Some nine ∧
   ingestItem holds_nine ten futureCutoff now = (holds_nine, false)) ∧
  (timestamp fifteen < timestamp sixteen ∧
   existingSameAuthorSameKey holds_fifteen sixteen = Some fifteen ∧
   ingestItem holds_fifteen sixteen futureCutoff now = (holds_fifteen, false)).
Proof.
  split; (split; [done|]; split; [by vm_compute|]);
    rewrite ingestItem_cases; destruct (negb _); try done; by vm_compute.
Qed.

(** C2, evaluated where it fails: offered in either order to the empty
    store, the items of timestamps 9 and 10 leave the one of timestamp 9
    as the stored row, not the maximum by integer timestamp; likewise the
    items of timestamps 999999999999999 and 1000000000000000 leave the
    former. *)
Theorem ingest_nine_ten_keeps_nine now :
  Forall (λ d, itemIsValid d None now = true) [nine; ten; fifteen; sixteen] →
  (timestamp nine < timestamp ten ∧
   existingSameAuthorSameKey (ingest_each empty [nine; ten] now) nine = Some nine ∧
   existingSameAuthorSameKey (ingest_each empty [ten; nine] now) nine = Some nine) ∧
  (timestamp fifteen < timestamp sixteen ∧
   existingSameAuthorSameKey (ingest_each empty [fifteen; sixteen] now) fifteen
   = Some fifteen ∧
   existingSameAuthorSameKey (ingest_each empty [sixteen; fifteen] now) fifteen
   = Some fifteen).
Proof.
  intros Hall. rewrite !Forall_cons in Hall.
  destruct Hall as (H9 & H10 & H15 & H16 & _).
  split; (split; [done|]); unfold ingest_each; simpl;
    rewrite !(ingestItem_cases empty), ?H9, ?H10, ?H15, ?H16; simpl;
    rewrite !ingestItem_cases, ?H9, ?H10, ?H15, ?H16; simpl;
    split; by vm_compute.
Qed.

(** *** The winner of a key *)

Lemma by_recency_refl a : by_recency a a = true.
Proof.
  unfold by_recency. rewrite (bool_decide_eq_true_2 (timestamp a = timestamp a)) by done.
  assert (String.le (signature a) (signature a)) as H by done.
  apply Is_true_true in H. rewrite H. apply orb_true_r.
Qed.

Lemma by_recency_spec a b :
  by_recency a b = true ↔
  timestamp b < timestamp a
  ∨ (timestamp a = timestamp b ∧ String.le (signature b) (signature a)).
Proof.
  unfold by_recency, String.le.
  rewrite orb_true_iff, andb_true_iff, !bool_decide_eq_true, Is_true_true. done.
Qed.

Local Instance by_recency_total : Total (λ a b, Is_true (by_recency a b)).
Proof.
  intros a b. rewrite !Is_true_true, !by_recency_spec.
  destruct (Z.lt_trichotomy (timestamp a) (timestamp b)) as [?|[?|?]]; [auto| |auto].
  destruct (total String.le (signature a) (signature b)); auto.
Qed.

Local Instance by_recency_trans : Transitive (λ a b, Is_true (by_recency a b)).
Proof.
  intros a b c. rewrite !Is_true_true, !by_recency_spec.
  intros [?|[? ?]] [?|[? ?]]; [left; lia..|].
  right. split; [lia|by etrans].
Qed.

(** [getItem] returns a row of the key that is listed before every other
    row of the key: greatest timestamp, then greatest signature. *)
Lemma getItem_winner this k :
  match getItem this k with
  | Some r =>
      r ∈ rows (db this) ∧ key r = k ∧
      ∀ r', r' ∈ rows (db this) → key r' = k → by_recency r r' = true
  | None => ∀ r', r' ∈ rows (db this) → key r' ≠ k
  end.
Proof.
  unfold getItem, order_by.
  set (found := filter (λ i, key i = k) (rows (db this))).
  pose proof (StronglySorted_merge_sort (λ a b, Is_true (by_recency a b)) found)
    as Hsorted.
  pose proof (merge_sort_Permutation (λ a b, Is_true (by_recency a b)) found)
    as Hperm.
  destruct (merge_sort _ found) as [|r l]; simpl.
  - apply Permutation_nil_l in Hperm. intros r' Hr' Hk.
    assert (r' ∈ found) as Hin by (by apply list_elem_of_filter).
    rewrite <-Hperm in Hin. by apply elem_of_nil in Hin.
  - assert (r ∈ found) as Hr.
    { rewrite <-Hperm. apply list_elem_of_here. }
    apply list_elem_of_filter in Hr as [Hk Hr]. split; [done|]. split; [done|].
    intros r' Hr' Hk'.
    assert (r' ∈ r :: l) as Hin.
    { rewrite Hperm. by apply list_elem_of_filter. }
    apply elem_of_cons in Hin as [->|Hin]; [apply by_recency_refl|].
    apply StronglySorted_inv in Hsorted as [_ Hall].
    rewrite Forall_forall in Hall. apply Is_true_true. by apply Hall.
Qed.

(** What [set] offers to [ingestItem]: the timestamp is the greater of
    the requested one (the clock, when none or none positive is given)
    and the successor of the winning timestamp of the key; it exceeds the
    timestamp of every row retained under the key, and it is passed again
    as the future cutoff, under which the item is not dated in the
    future. *)
Lemma set_offers this itemToSet now :
  let requested := default 0 (its_timestamp itemToSet) in
  let t := Z.max (if bool_decide (0 < requested) then requested else now * 1000)
                 (default 0 (timestamp <$> getItem this (its_key itemToSet)) + 1) in
  ∃ signed,
    set this itemToSet now = ingestItem this signed (Some t) now ∧
    timestamp signed = t ∧
    key signed = its_key itemToSet ∧
    author signed = its_author itemToSet ∧
    (∀ r, r ∈ rows (db this) → key r = its_key itemToSet → timestamp r < t) ∧
    itemIsValid signed (Some t) now = itemWellFormed signed.
Proof.
  intros requested t. eexists. split; [reflexivity|]. simpl.
  split; [done|]. split; [done|]. split; [done|]. split.
  - intros r Hr Hk. pose proof (getItem_winner this (its_key itemToSet)) as Hw.
    destruct (getItem this (its_key itemToSet)) as [w|]; simpl in *.
    + destruct Hw as (_ & _ & Hmax).
      specialize (Hmax r Hr Hk). apply by_recency_spec in Hmax. unfold t. lia.
    + by destruct (Hw r Hr).
  - unfold itemIsValid. simpl.
    rewrite (bool_decide_eq_true_2 _ (Z.le_refl t)).
    apply andb_true_r.
Qed.

(** C4, evaluated where it fails: the store holds an item of timestamp 9
    by the author, who sets the key again.  [set] computes timestamp 10
    for a request dated 5, and the timestamp of the clock for a request
    without a date; [ingestItem] turns both down as not newer than 9, so
    [set] returns false and the stored timestamp stays 9.  Likewise a
    request without a date is turned down, the clock at 1700000000000 ms,
    over a stored item of timestamp 999999999999999. *)
Theorem set_after_nine_turned_down :
  (∀ now, set holds_nine past_request now = (holds_nine, false)) ∧
  set holds_nine plain_request 1700000000000 = (holds_nine, false) ∧
  set holds_fifteen plain_request 1700000000000 = (holds_fifteen, false).
Proof.
  split; [intros now|split]; unfold set; rewrite ingestItem_cases;
    destruct (negb _); try done; by vm_compute.
Qed.

(** *** The order in which one author's items for one key arrive *)

Lemma string_le_leb a b : string_le a b = String.leb a b.
Proof.
  unfold string_le, string_lt, String.ltb, String.leb.
  rewrite (String.compare_antisym a b). by destruct (b ?= a)%string.
Qed.

Lemma array_le_rendering (d : Item) (r : Row) :
  array_le (timestamp d) (signature d) (row_timestamp r) (row_signature r)
  = String.leb (rendering (row_of d)) (rendering r).
Proof. unfold array_le. by rewrite string_le_leb. Qed.

Lemma ingest_each_cons this d l now :
  ingest_each this (d :: l) now = ingest_each (ingestItem this d None now).1 l now.
Proof. done. Qed.

Lemma offer_is_Some slot d : is_Some (offer slot d).
Proof.
  unfold offer. destruct slot; [destruct (String.leb _ _)|]; by eexists.
Qed.

Lemma foldl_offer_is_Some docs : ∀ r, is_Some (foldl offer (Some r) docs).
Proof.
  induction docs as [|d docs IH]; intros r; simpl; [by eexists|].
  destruct (String.leb _ _); apply IH.
Qed.

Lemma ingest_each_slot k a now docs : ∀ this,
  Forall (λ d, key d = k ∧ author d = a ∧ itemIsValid d None now = true) docs →
  ingest_each this docs now
  = with_slot this (k, a) (foldl offer (db this !! (k, a)) docs).
Proof.
  induction docs as [|d docs IH]; intros this Hall.
  { simpl. destruct (db this !! (k, a)) as [r|] eqn:Hr; [|done].
    simpl. rewrite insert_id by done. by destruct this. }
  apply Forall_cons in Hall as [(Hk & Ha & Hv) Hall].
  rewrite ingest_each_cons, (IH _ Hall). clear IH.
  rewrite ingestItem_cases, Hv, Hk, Ha. simpl.
  destruct (db this !! (k, a)) as [r|] eqn:Hr; simpl.
  - rewrite array_le_rendering.
    destruct (String.leb _ _); simpl; [by rewrite Hr|].
    rewrite Hk, Ha, lookup_insert_eq.
    destruct (foldl_offer_is_Some docs (row_of d)) as [x ->]. simpl.
    by rewrite Hk, Ha, insert_insert_eq.
  - rewrite Hk, Ha, lookup_insert_eq.
    destruct (foldl_offer_is_Some docs (row_of d)) as [x ->]. simpl.
    by rewrite Hk, Ha, insert_insert_eq.
Qed.

(** The row left by [offer] over a list: the first greatest rendering,
    the row already there counting as first. *)
Lemma foldl_offer_greatest docs : ∀ slot,
  match foldl offer slot docs with
  | Some r =>
      (slot = Some r ∨ r ∈ row_of <$> docs) ∧
      (∀ d, d ∈ docs → String.le (rendering (row_of d)) (rendering r)) ∧
      (∀ r0, slot = Some r0 → String.le (rendering r0) (rendering r) ∧
             (String.le (rendering r) (rendering r0) → r = r0))
  | None => slot = None ∧ docs = []
  end.
Proof.
  induction docs as [|d docs IH]; intros slot; simpl.
  { destruct slot as [r|]; [|done]. split; [by left|]. split.
    - intros d Hd. by apply elem_of_nil in Hd.
    - by intros r0 [= ->]. }
  specialize (IH (offer slot d)).
  destruct (offer_is_Some slot d) as [x Hx]. rewrite Hx in *.
  destruct (foldl offer (Some x) docs) as [r|]; [|by destruct IH].
  destruct IH as (Hfrom & Hmax & Hprev).
  destruct (Hprev x eq_refl) as [Hxr Hrx].
  assert (String.le (rendering (row_of d)) (rendering x)) as Hd.
  { unfold offer in Hx. destruct slot as [r1|].
    - destruct (String.leb _ (rendering r1)) eqn:Hle; inversion Hx; subst; [|done].
      by apply Is_true_true.
    - by inversion Hx. }
  split; [|split].
  - destruct Hfrom as [Hfrom|Hfrom];
      [|right; apply elem_of_cons; right; exact Hfrom].
    inversion Hfrom; subst x. unfold offer in Hx. destruct slot as [r1|].
    + destruct (String.leb _ (rendering r1)); inversion Hx; subst;
        [by left|right; apply elem_of_cons; by left].
    + inversion Hx; subst. right. apply elem_of_cons. by left.
  - intros d' [->|Hd']%elem_of_cons; [by etrans|by apply Hmax].
  - intros r0 ->. unfold offer in Hx.
    destruct (String.leb (rendering (row_of d)) (rendering r0)) eqn:Hle.
    + by inversion Hx; subst x.
    + inversion Hx; subst x.
      assert (¬ String.le (rendering (row_of d)) (rendering r0)) as Hlt.
      { intros H. apply Is_true_true in H. congruence. }
      split.
      * destruct (total String.le (rendering r0) (rendering (row_of d)));
          [by etrans|done].
      * intros Hback. destruct Hlt. by etrans.
Qed.

Lemma NoDup_fmap_eq {A B} (f : A → B) (l : list A) x y :
  NoDup (f <$> l) → x ∈ l → y ∈ l → f x = f y → x = y.
Proof.
  induction l as [|z l IH]; intros Hnd Hx Hy Hf; [by apply elem_of_nil in Hx|].
  rewrite fmap_cons in Hnd. apply NoDup_cons in Hnd as [Hz Hnd].
  apply elem_of_cons in Hx as [->|Hx], Hy as [->|Hy]; [done| | |by apply IH].
  - destruct Hz. rewrite Hf. by apply list_elem_of_fmap_2.
  - destruct Hz. rewrite <-Hf. by apply list_elem_of_fmap_2.
Qed.

(** However the items of one author for one key are ordered, [ingestItem]
    leaves the same store, provided no two of them render alike. *)
Lemma ingest_each_permutation k a now this docs docs' :
  docs ≡ₚ docs' →
  Forall (λ d, key d = k ∧ author d = a ∧ itemIsValid d None now = true) docs →
  NoDup ((λ d, rendering (row_of d)) <$> docs) →
  ingest_each this docs now = ingest_each this docs' now.
Proof.
  intros Hperm Hall Hnd.
  assert (Forall (λ d, key d = k ∧ author d = a ∧ itemIsValid d None now = true)
            docs') as Hall' by (by rewrite <-Hperm).
  rewrite (ingest_each_slot k a now docs this Hall).
  rewrite (ingest_each_slot k a now docs' this Hall').
  f_equal.
  pose proof (foldl_offer_greatest docs (db this !! (k, a))) as H1.
  pose proof (foldl_offer_greatest docs' (db this !! (k, a))) as H2.
  destruct (foldl offer _ docs) as [r1|], (foldl offer _ docs') as [r2|].
  - destruct H1 as (Hf1 & Hm1 & Hp1), H2 as (Hf2 & Hm2 & Hp2). f_equal.
    assert (∀ x y, (x ∈ row_of <$> docs) → (y ∈ row_of <$> docs) →
                   rendering x = rendering y → x = y) as Hinj.
    { intros x y (dx & -> & Hdx)%list_elem_of_fmap (dy & -> & Hdy)%list_elem_of_fmap Hxy.
      f_equal. by apply (NoDup_fmap_eq _ _ _ _ Hnd). }
    assert (∀ x, x ∈ row_of <$> docs' → x ∈ row_of <$> docs) as Hsub.
    { intros x. by rewrite Hperm. }
    assert (∀ x, x ∈ row_of <$> docs → String.le (rendering x) (rendering r2)) as Hm2'.
    { intros x (dx & -> & Hdx)%list_elem_of_fmap. apply Hm2. by rewrite <-Hperm. }
    assert (∀ x, x ∈ row_of <$> docs → String.le (rendering x) (rendering r1)) as Hm1'.
    { intros x (dx & -> & Hdx)%list_elem_of_fmap. by apply Hm1. }
    destruct Hf1 as [Hs1|Hin1], Hf2 as [Hs2|Hin2].
    + congruence.
    + apply Hsub in Hin2. symmetry. apply (Hp2 r1 Hs1). by apply Hm1'.
    + apply (Hp1 r2 Hs2). by apply Hm2'.
    + apply Hsub in Hin2. apply Hinj; [done..|].
      apply (anti_symm String.le); [by apply Hm2'|by apply Hm1'].
  - destruct H2 as [Hs ->]. apply Permutation_nil_r in Hperm as ->.
    destruct H1 as ([?|Hin] & _); [congruence|by apply elem_of_nil in Hin].
  - destruct H1 as [Hs ->]. apply Permutation_nil_l in Hperm as <-.
    destruct H2 as ([?|Hin] & _); [congruence|by apply elem_of_nil in Hin].
  - done.
Qed.

(** *** Sync between two stores *)

(** The two guards at the head of [sync]. *)
Lemma sync_guarded (h : Heap) this otherStore opts now :
  otherStore = this ∨ store_workspace (h this) ≠ store_workspace (h otherStore) →
  sync h this otherStore opts now = (h, Returned (mkSyncResults 0 0)).
Proof.
  intros [->|Hws]; unfold sync.
  - by rewrite decide_True.
  - destruct (decide _); [done|]. by rewrite bool_decide_eq_false_2.
Qed.

(** C5: a store synced with itself, or with a store of another
    workspace, returns zero counts and leaves every store as it was,
    whatever the options. *)
Theorem sync_guards_are_noops (h : Heap) this otherStore opts now :
  otherStore = this ∨ store_workspace (h this) ≠ store_workspace (h otherStore) →
  sync h this otherStore opts now = (h, Returned (mkSyncResults 0 0)) ∧
  ∀ r, (sync h this otherStore opts now).1 r = h r.
Proof. intros Hguard. by rewrite sync_guarded. Qed.

(** C6, as amended: with [live] set, a sync between two distinct stores
    of one workspace throws the error of the unimplemented live sync
    before anything is read or ingested; a sync stopped by a guard
    returns zero counts all the same. *)
Theorem sync_live_throws_past_guards (h : Heap) this otherStore opts now :
  opts ≫= live = Some true →
  (otherStore ≠ this →
   store_workspace (h this) = store_workspace (h otherStore) →
   sync h this otherStore opts now = (h, Thrown "live sync not implemented yet")) ∧
  (otherStore = this ∨ store_workspace (h this) ≠ store_workspace (h otherStore) →
   sync h this otherStore opts now = (h, Returned (mkSyncResults 0 0))).
Proof.
  intros Hlive. split; [|apply sync_guarded].
  intros Hne Hws. unfold sync.
  rewrite decide_False by done. rewrite bool_decide_eq_true_2 by done. simpl.
  rewrite Hlive. simpl. unfold _syncFrom. by destruct (default Both _).
Qed.

End StoreProperties.

(** * Properties of the queries *)

Section QueryProperties.

Import Js Store Fixtures Notions.
Context {V : Validator} {E : Sqlite}.

Lemma item_of_row_of (i : Item) : item_of (key i, author i) (row_of i) = i.
Proof. by destruct i. Qed.

Lemma item_of_inj ka r ka' r' : item_of ka r = item_of ka' r' → ka = ka' ∧ r = r'.
Proof.
  destruct ka, ka', r, r'. unfold item_of; simpl. intros H.
  by inversion H.
Qed.

(** A scan lists exactly the rows the table maps. *)
Lemma elem_of_rows (t : Table) (i : Item) :
  i ∈ rows t ↔ t !! (key i, author i) = Some (row_of i).
Proof.
  unfold rows. rewrite list_elem_of_fmap. split.
  - intros ([ka r] & -> & Hin). apply elem_of_map_to_list in Hin.
    simpl. by destruct ka, r.
  - intros H. exists ((key i, author i), row_of i). split.
    + simpl. by rewrite item_of_row_of.
    + by apply elem_of_map_to_list.
Qed.

Lemma NoDup_rows (t : Table) : NoDup (rows t).
Proof.
  unfold rows. apply NoDup_fmap_2_strong; [|apply NoDup_map_to_list].
  intros [ka r] [ka' r'] _ _ H. simpl in H.
  apply item_of_inj in H as [-> ->]. done.
Qed.

Lemma order_by_perm le l : order_by le l ≡ₚ l.
Proof. apply merge_sort_Permutation. Qed.

Lemma apply_limit_sublist q l : apply_limit q l `sublist_of` l.
Proof.
  unfold apply_limit. destruct (q_limit q) as [n|]; [|done].
  destruct (bool_decide _); [apply sublist_take|done].
Qed.

Lemma apply_limit_unlimited q l :
  ¬ (∃ n, q_limit q = Some n ∧ 0 < n) → apply_limit q l = l.
Proof.
  intros Hno. unfold apply_limit. destruct (q_limit q) as [n|]; [|done].
  case_bool_decide; [|done]. destruct Hno. eauto.
Qed.

Lemma filter_all {A} (P : A → Prop) `{∀ x, Decision (P x)} (l : list A) :
  (∀ x, P x) → filter P l = l.
Proof.
  intros HP. induction l as [|x l IH]; [done|].
  rewrite filter_cons_True by done. by rewrite IH.
Qed.

(** With history, a query without filter and limit lists every row. *)
Lemma items_withHistory_perm this : items this withHistory ≡ₚ rows (db this).
Proof.
  unfold items, withHistory, apply_limit; simpl.
  rewrite order_by_perm. by rewrite filter_all.
Qed.

(** *** Grouping *)

Lemma max_row_cases best r :
  (max_row best r = best ∨ max_row best r = r) ∧
  timestamp best ≤ timestamp (max_row best r) ∧
  timestamp r ≤ timestamp (max_row best r).
Proof.
  unfold max_row. repeat case_bool_decide; [| |destruct (tie_takes_later _ _)];
    (split; [auto|lia]).
Qed.

Local Ltac in_snoc H x :=
  apply elem_of_app in H as [H|H];
  [|apply list_elem_of_singleton in H; subst x].

Local Ltac snoc_mem :=
  apply elem_of_app;
  first [by left | by right; apply list_elem_of_singleton].

Lemma groups_of_step l g r :
  groups_of l g → groups_of (l ++ [r]) (group_step g r).
Proof.
  intros Hg k. unfold group_step.
  pose proof (Hg k) as Hk. pose proof (Hg (key r)) as Hr.
  destruct (g !! key r) as [best|] eqn:Hbest.
  - destruct Hr as (Hkb & Hin & Hmax).
    destruct (max_row_cases best r) as (Hcase & Hb & Hr').
    destruct (decide (key r = k)) as [<-|Hne].
    + rewrite lookup_insert_eq. split; [by destruct Hcase as [Heq | Heq]; rewrite Heq|].
      split.
      * destruct Hcase as [Heq | Heq]; rewrite Heq; snoc_mem.
      * intros r' Hr1 Hk'. in_snoc Hr1 r'; [|done].
        specialize (Hmax r' Hr1 Hk'). lia.
    + rewrite lookup_insert_ne by done.
      destruct (g !! k) as [x|].
      * destruct Hk as (? & ? & Hm). split; [done|]. split; [snoc_mem|].
        intros r' Hr1 Hk'. in_snoc Hr1 r'; [eauto|done].
      * intros r' Hr1. in_snoc Hr1 r'; [eauto|done].
  - destruct (decide (key r = k)) as [<-|Hne].
    + rewrite lookup_insert_eq. split; [done|]. split; [snoc_mem|].
      intros r' Hr1 Hk'. in_snoc Hr1 r'; [|done].
      by destruct (Hr r' Hr1).
    + rewrite lookup_insert_ne by done.
      destruct (g !! k) as [x|].
      * destruct Hk as (? & ? & Hm). split; [done|]. split; [snoc_mem|].
        intros r' Hr1 Hk'. in_snoc Hr1 r'; [eauto|done].
      * intros r' Hr1. in_snoc Hr1 r'; [eauto|done].
Qed.

Lemma groups_of_fold l : groups_of l (foldl group_step ∅ l).
Proof.
  induction l as [|r l IH] using rev_ind.
  - intros k. simpl. rewrite lookup_empty. set_solver.
  - rewrite foldl_snoc. by apply groups_of_step.
Qed.

Lemma elem_of_group_by_key l r :
  r ∈ group_by_key l →
  r ∈ l ∧ ∀ r', r' ∈ l → key r' = key r → timestamp r' ≤ timestamp r.
Proof.
  unfold group_by_key. rewrite list_elem_of_fmap.
  intros ([k x] & -> & Hin). apply elem_of_map_to_list in Hin. simpl.
  pose proof (groups_of_fold l k) as Hk. rewrite Hin in Hk.
  destruct Hk as (<- & ? & ?). done.
Qed.

Lemma group_by_key_covers l r' :
  r' ∈ l → ∃ r, r ∈ group_by_key l ∧ key r = key r'.
Proof.
  intros Hin. pose proof (groups_of_fold l (key r')) as Hk.
  destruct (foldl group_step ∅ l !! key r') as [r|] eqn:Hr.
  - destruct Hk as (Hkey & _ & _). exists r. split; [|done].
    unfold group_by_key. apply list_elem_of_fmap.
    exists (key r', r). split; [done|]. by apply elem_of_map_to_list.
  - by destruct (Hk r' Hin).
Qed.

Lemma NoDup_group_by_key l : NoDup (key <$> group_by_key l).
Proof.
  unfold group_by_key.
  assert (key <$> (map_to_list (foldl group_step ∅ l)).*2
          = (map_to_list (foldl group_step ∅ l)).*1) as ->;
    [|apply NoDup_fst_map_to_list].
  assert (Forall (λ kr, key kr.2 = kr.1) (map_to_list (foldl group_step ∅ l)))
    as Hall.
  { apply Forall_forall. intros [k r] Hin. apply elem_of_map_to_list in Hin.
    pose proof (groups_of_fold l k) as Hk. rewrite Hin in Hk. by destruct Hk. }
  induction Hall as [|[k r] m Hkr _ IH]; [done|].
  rewrite !fmap_cons, IH. simpl in *. by rewrite Hkr.
Qed.

Lemma elem_of_scanned this q r :
  r ∈ filter (λ i, Is_true (matches q (key i))) (rows (db this))
  ↔ matches q (key r) = true ∧ r ∈ rows (db this).
Proof. rewrite list_elem_of_filter. by rewrite Is_true_true. Qed.

(** Without history: one row a key at most, each a retained row that
    matches the filter and carries the greatest timestamp of its key; and
    without a positive limit every matching key has its row. *)
Lemma items_winners this q :
  q_includeHistory q = false →
  NoDup (key <$> items this q) ∧
  (∀ r, r ∈ items this q →
     r ∈ rows (db this) ∧ matches q (key r) = true ∧
     ∀ r', r' ∈ rows (db this) → key r' = key r → timestamp r' ≤ timestamp r) ∧
  (¬ (∃ n, q_limit q = Some n ∧ 0 < n) →
     ∀ r', r' ∈ rows (db this) → matches q (key r') = true →
     ∃ r, r ∈ items this q ∧ key r = key r').
Proof.
  intros Hq. unfold items. rewrite Hq.
  set (scanned := filter _ (rows (db this))).
  split; [|split].
  - apply (sublist_NoDup _ (key <$> order_by by_key_recency (group_by_key scanned))).
    + rewrite order_by_perm. apply NoDup_group_by_key.
    + apply fmap_sublist, apply_limit_sublist.
  - intros r Hr.
    eapply elem_of_sublist in Hr; [|apply apply_limit_sublist].
    rewrite order_by_perm in Hr.
    apply elem_of_group_by_key in Hr as [Hin Hmax].
    apply elem_of_scanned in Hin as [Hm Hrow].
    split; [done|]. split; [done|].
    intros r' Hr' Hk. apply Hmax; [|done].
    apply elem_of_scanned. by rewrite Hk.
  - intros Hno r' Hr' Hm.
    rewrite apply_limit_unlimited by done.
    destruct (group_by_key_covers scanned r') as (r & Hr & Hk).
    { by apply elem_of_scanned. }
    exists r. split; [|done]. by rewrite order_by_perm.
Qed.

(** *** Retention across authors *)

(** Items of one key by distinct authors new to the key are all stored,
    and nothing else changes. *)
Lemma ingest_each_fresh k now docs : ∀ this,
  Forall (λ d, key d = k ∧ itemIsValid d None now = true) docs →
  NoDup (author <$> docs) →
  (∀ d, d ∈ docs → db this !! (k, author d) = None) →
  (∀ d, d ∈ docs →
     db (ingest_each this docs now) !! (k, author d) = Some (row_of d)) ∧
  (∀ ka, (∀ d, d ∈ docs → ka ≠ (k, author d)) →
     db (ingest_each this docs now) !! ka = db this !! ka).
Proof.
  induction docs as [|d docs IH]; intros this Hall Hnd Hfresh.
  { split; [intros d Hd; by apply elem_of_nil in Hd|done]. }
  apply Forall_cons in Hall as [[Hk Hv] Hall].
  rewrite fmap_cons in Hnd. apply NoDup_cons in Hnd as [Hd Hnd].
  rewrite ingest_each_cons, ingestItem_cases, Hv, Hk. simpl.
  rewrite (Hfresh d) by apply list_elem_of_here.
  destruct (IH (insert_or_replace this d) Hall Hnd) as [IHa IHb].
  { intros d' Hd'. simpl. rewrite Hk, lookup_insert_ne.
    - apply Hfresh. by apply list_elem_of_further.
    - intros [=Ha]. apply Hd. rewrite Ha. by apply list_elem_of_fmap_2. }
  split.
  - intros d' [->|Hd']%elem_of_cons; [|by apply IHa].
    rewrite IHb.
    + simpl. by rewrite Hk, lookup_insert_eq.
    + intros d' Hd' [=Ha]. apply Hd. rewrite Ha. by apply list_elem_of_fmap_2.
  - intros ka Hka. rewrite IHb.
    + simpl. rewrite Hk, lookup_insert_ne; [done|].
      intros <-. by apply (Hka d (list_elem_of_here _ _)).
    + intros d' Hd'. apply Hka. by apply list_elem_of_further.
Qed.

Lemma retained_rows_of_key k now docs this :
  Forall (λ d, key d = k ∧ itemIsValid d None now = true) docs →
  NoDup (author <$> docs) →
  filter (λ r, key r = k) (rows (db this)) = [] →
  filter (λ r, key r = k) (rows (db (ingest_each this docs now))) ≡ₚ docs.
Proof.
  intros Hall Hnd Hnone.
  assert (∀ a, db this !! (k, a) = None) as Hfree.
  { intros a. destruct (db this !! (k, a)) as [r|] eqn:Hr; [|done].
    exfalso. eapply (filter_nil_not_elem_of _ _ (item_of (k, a) r)); [done|done|].
    apply elem_of_rows. simpl. by destruct r. }
  destruct (ingest_each_fresh k now docs this Hall Hnd) as [Ha Hb]; [done|].
  apply NoDup_Permutation.
  - apply NoDup_filter, NoDup_rows.
  - by eapply NoDup_fmap_1.
  - intros r. rewrite list_elem_of_filter, elem_of_rows. split.
    + intros [<- Hr].
      destruct (decide (author r ∈ author <$> docs)) as [Hin|Hno].
      * apply list_elem_of_fmap in Hin as (d & Had & Hd). symmetry in Had.
        pose proof (Ha d Hd) as Hd'. rewrite Had, Hr in Hd'.
        rewrite Forall_forall in Hall. destruct (Hall d Hd) as [Hkd _].
        assert (d = r) as <-; [|done].
        rewrite <-(item_of_row_of d), <-(item_of_row_of r).
        assert (row_of r = row_of d) as Hrow by congruence.
        by rewrite Hkd, Had, Hrow.
      * rewrite Hb, Hfree in Hr; [done|].
        intros d Hd [=Had]. apply Hno. rewrite Had. by apply list_elem_of_fmap_2.
    + intros Hd. rewrite Forall_forall in Hall. destruct (Hall r Hd) as [Hk _].
      split; [done|]. rewrite Hk. by apply Ha.
Qed.

(** *** The order of the rows returned *)

Lemma ltb_spec a b : String.ltb a b = true ↔ String.le a b ∧ a ≠ b.
Proof.
  unfold String.le, String.leb, String.ltb. split.
  - intros H. destruct (a ?= b)%string eqn:Hc; try done. split; [done|].
    intros ->. by rewrite string_lt_compare_refl in Hc.
  - intros [Hle Hne]. destruct (a ?= b)%string eqn:Hc; try done.
    by apply String.compare_eq_iff in Hc.
Qed.

Lemma ltb_trans a b c :
  String.ltb a b = true → String.ltb b c = true → String.ltb a c = true.
Proof.
  rewrite !ltb_spec. intros [Hab Hne] [Hbc Hne']. split; [by etrans|].
  intros ->. apply Hne. by apply (anti_symm String.le).
Qed.

Lemma by_key_recency_spec a b :
  by_key_recency a b = true ↔
  String.ltb (key a) (key b) = true ∨ (key a = key b ∧ by_recency a b = true).
Proof.
  unfold by_key_recency.
  by rewrite orb_true_iff, andb_true_iff, bool_decide_eq_true.
Qed.

Local Instance by_key_recency_total : Total (λ a b, Is_true (by_key_recency a b)).
Proof.
  intros a b. rewrite !Is_true_true, !by_key_recency_spec, !ltb_spec.
  destruct (decide (key a = key b)) as [Heq|Hne].
  - destruct (by_recency_total a b) as [H|H]; apply Is_true_true in H; auto.
  - destruct (total String.le (key a) (key b)); auto.
Qed.

Local Instance by_key_recency_trans :
  Transitive (λ a b, Is_true (by_key_recency a b)).
Proof.
  intros a b c. rewrite !Is_true_true, !by_key_recency_spec.
  intros [Hab|[Hab Hr]] [Hbc|[Hbc Hr']].
  - left. by eapply ltb_trans.
  - left. by rewrite <-Hbc.
  - left. by rewrite Hab.
  - right. split; [congruence|].
    apply Is_true_true. apply (by_recency_trans a b c); by apply Is_true_true.
Qed.

(** Rows in the order of the query, no two of one key: the keys ascend. *)
Lemma sorted_keys_ascend l :
  StronglySorted (λ a b, Is_true (by_key_recency a b)) l →
  NoDup (key <$> l) →
  StronglySorted (λ a b, String.ltb (key a) (key b) = true) l.
Proof.
  induction 1 as [|a l Hsorted IH Hall]; intros Hnd; constructor.
  - apply IH. rewrite fmap_cons in Hnd. by apply NoDup_cons in Hnd as [_ ?].
  - rewrite fmap_cons in Hnd. apply NoDup_cons in Hnd as [Ha _].
    rewrite Forall_forall in Hall |- *. intros b Hb.
    specialize (Hall b Hb). apply Is_true_true, by_key_recency_spec in Hall.
    destruct Hall as [?|[Hk _]]; [done|].
    destruct Ha. rewrite Hk. by apply list_elem_of_fmap_2.
Qed.

Lemma apply_limit_sorted R q l :
  StronglySorted R l → StronglySorted R (apply_limit q l).
Proof.
  intros Hl. unfold apply_limit. destruct (q_limit q) as [n|]; [|done].
  destruct (bool_decide _); [|done].
  rewrite <-(take_drop (Z.to_nat n) l) in Hl.
  by apply StronglySorted_app_1_l in Hl.
Qed.

(** Without history the rows come by ascending key. *)
Lemma items_keys_ascend this q :
  q_includeHistory q = false →
  StronglySorted (λ a b, String.ltb (key a) (key b) = true) (items this q).
Proof.
  intros Hq. unfold items. rewrite Hq. apply apply_limit_sorted.
  apply sorted_keys_ascend.
  - apply StronglySorted_merge_sort; apply _.
  - rewrite order_by_perm. apply NoDup_group_by_key.
Qed.

(** A positive limit keeps the first rows of the unlimited answer. *)
Lemma items_limited this q n :
  q_limit q = Some n → 0 < n →
  items this q
  = take (Z.to_nat n)
      (items this (mkQueryOpts (q_key q) (q_lowKey q) (q_highKey q) (q_prefix q)
                     None (q_includeHistory q))).
Proof.
  intros Hn Hpos. unfold items, apply_limit; simpl.
  rewrite Hn. by rewrite bool_decide_eq_true_2.
Qed.

(** X1: a query without history returns at most one row for a key, by
    ascending key; each returned row is a row of the table that matches
    the filter and has the greatest timestamp among the rows of its key,
    so it is the greatest by (timestamp, signature) whenever no other row
    of the key shares that timestamp, and one of the rows that share it
    otherwise; without a positive limit every key with a matching row is
    returned, and a positive limit keeps the first rows of that answer.
    Valid items of one key by N distinct authors, ingested into a store
    without rows of that key, leave exactly those N rows under the key,
    all of them returned by a query with history and without filter or
    limit. *)
Theorem items_without_history_and_retention :
  (∀ this q,
     q_includeHistory q = false →
     NoDup (key <$> items this q) ∧
     StronglySorted (λ a b, String.ltb (key a) (key b) = true) (items this q) ∧
     (∀ r, r ∈ items this q →
        r ∈ rows (db this) ∧ matches q (key r) = true ∧
        (∀ r', r' ∈ rows (db this) → key r' = key r →
               timestamp r' ≤ timestamp r) ∧
        (∀ w, w ∈ rows (db this) → key w = key r →
              (∀ r', r' ∈ rows (db this) → key r' = key w → r' ≠ w →
                     timestamp r' < timestamp w) →
              r = w)) ∧
     (¬ (∃ n, q_limit q = Some n ∧ 0 < n) →
        ∀ r', r' ∈ rows (db this) → matches q (key r') = true →
        ∃ r, r ∈ items this q ∧ key r = key r') ∧
     (∀ n, q_limit q = Some n → 0 < n →
        items this q
        = take (Z.to_nat n)
            (items this (mkQueryOpts (q_key q) (q_lowKey q) (q_highKey q)
                           (q_prefix q) None false)))) ∧
  (∀ this docs k now,
     Forall (λ d, key d = k ∧ itemIsValid d None now = true) docs →
     NoDup (author <$> docs) →
     filter (λ r, key r = k) (rows (db this)) = [] →
     let final := ingest_each this docs now in
     filter (λ r, key r = k) (rows (db final)) ≡ₚ docs ∧
     length (filter (λ r, key r = k) (rows (db final))) = length docs ∧
     (∀ d, d ∈ docs → d ∈ items final withHistory)).
Proof.
  split.
  - intros this q Hq. destruct (items_winners this q Hq) as (Hnd & Hwin & Hall).
    split; [done|]. split; [by apply items_keys_ascend|].
    split; [|split; [done|]].
    + intros r Hr. destruct (Hwin r Hr) as (Hrow & Hm & Hmax).
      split; [done|]. split; [done|]. split; [done|].
      intros w Hw Hk Hstrict.
      destruct (decide (r = w)) as [|Hne]; [done|].
      specialize (Hstrict r Hrow (eq_sym Hk) Hne).
      specialize (Hmax w Hw Hk). lia.
    + intros n Hn Hpos. rewrite (items_limited this q n Hn Hpos). by rewrite Hq.
  - intros this docs k now Hall Hnd Hnone final. subst final.
    pose proof (retained_rows_of_key k now docs this Hall Hnd Hnone) as Hperm.
    split; [done|]. split; [by rewrite Hperm|].
    intros d Hd. rewrite items_withHistory_perm.
    rewrite <-Hperm in Hd. by apply list_elem_of_filter in Hd as [_ ?].
Qed.

End QueryProperties.

(** With [limit] 1 a query without history returns the row of key j
    only, although key k has a row and matches. *)
Lemma items_limit_omits_a_key :
  Store.q_includeHistory Fixtures.first_only = false ∧
  Store.matches Fixtures.first_only "k" = true ∧
  Fixtures.nine ∈ Store.rows (Store.db Fixtures.two_keys) ∧
  Store.items (E:=Fixtures.keep_first) Fixtures.two_keys Fixtures.first_only
  = [Fixtures.jay].
Proof.
  split; [done|]. split; [done|]. split; [|by vm_compute].
  apply elem_of_rows. by vm_compute.
Qed.

(** C3, where the code departs from it: a store holds two rows of key k
    and timestamp 9, by alice with signature sig9 and by bob with
    signature sigB.  The greater by (timestamp, signature) is the row of
    bob, and it is the row [getItem] returns.  A query without history
    returns one row for the key, and the signature has no part in its
    choice: the ORDER BY of the query comes after the grouping, so the
    row is the one the engine takes among those that reach the greatest
    timestamp.  With an engine that keeps the first of them in the order
    of the primary key it is the row of alice. *)
Theorem items_tie_not_broken_by_signature :
  (Store.key Fixtures.nine = Store.key Fixtures.by_bob ∧
   Store.timestamp Fixtures.nine = Store.timestamp Fixtures.by_bob ∧
   String.ltb (Store.signature Fixtures.nine) (Store.signature Fixtures.by_bob)
   = true) ∧
  (∀ r, r ∈ Store.rows (Store.db Fixtures.two_authors)
        ↔ r = Fixtures.nine ∨ r = Fixtures.by_bob) ∧
  Store.getItem Fixtures.two_authors "k" = Some Fixtures.by_bob ∧
  (∀ E : Store.Sqlite,
     Store.items (E:=E) Fixtures.two_authors Store.noQuery
     = [if Store.tie_takes_later Fixtures.nine Fixtures.by_bob
        then Fixtures.by_bob else Fixtures.nine]) ∧
  Store.items (E:=Fixtures.first_in_key_order) Fixtures.two_authors Store.noQuery
  = [Fixtures.nine].
Proof.
  split; [by vm_compute|]. split; [|split; [by vm_compute|split]].
  - intros r.
    assert (Store.rows (Store.db Fixtures.two_authors)
            = [Fixtures.nine; Fixtures.by_bob]) as -> by (by vm_compute).
    rewrite elem_of_cons, list_elem_of_singleton. done.
  - intros E. vm_compute. reflexivity.
  - by vm_compute.
Qed.

Lemma items_without_history_and_retention_witness :
  NoDup (Store.key <$>
           Store.items (E:=Fixtures.keep_first) Fixtures.two_keys Fixtures.first_only)
  ∧ length (filter (λ r, Store.key r = "k")
              (Store.rows (Store.db
                 (Notions.ingest_each (V:=Fixtures.lenient) Fixtures.empty
                    [Fixtures.nine; Fixtures.by_bob] 0))))
    = 2%nat.
Proof.
  split.
  - apply (proj1 (items_without_history_and_retention
                    (V:=Fixtures.lenient) (E:=Fixtures.keep_first))
             Fixtures.two_keys Fixtures.first_only eq_refl).
  - apply (proj2 (items_without_history_and_retention
                    (V:=Fixtures.lenient) (E:=Fixtures.keep_first))
             Fixtures.empty [Fixtures.nine; Fixtures.by_bob] "k" 0).
    + repeat constructor.
    + by apply (bool_decide_unpack (NoDup _)).
    + reflexivity.
Defined.

Lemma ingest_rejection_leaves_store_witness :
  (Store.ingestItem (V:=Fixtures.lenient) Fixtures.holds_nine Fixtures.ten None 0).1
  = Fixtures.holds_nine.
Proof.
  apply (ingest_rejection_leaves_store (V:=Fixtures.lenient)
           Fixtures.holds_nine Fixtures.ten None 0).
  reflexivity.
Defined.

Lemma ingest_nine_ten_keeps_nine_witness :
  Store.existingSameAuthorSameKey
    (Notions.ingest_each (V:=Fixtures.lenient) Fixtures.empty
       [Fixtures.nine; Fixtures.ten] 1700000000000) Fixtures.nine
  = Some Fixtures.nine ∧
  Store.existingSameAuthorSameKey
    (Notions.ingest_each (V:=Fixtures.lenient) Fixtures.empty
       [Fixtures.sixteen; Fixtures.fifteen] 1700000000000) Fixtures.fifteen
  = Some Fixtures.fifteen.
Proof.
  assert (Forall (λ d, Store.itemIsValid (V:=Fixtures.lenient) d None 1700000000000
                       = true)
            [Fixtures.nine; Fixtures.ten; Fixtures.fifteen; Fixtures.sixteen])
    as Hvalid by (repeat constructor).
  split;
    apply (ingest_nine_ten_keeps_nine (V:=Fixtures.lenient) 1700000000000 Hvalid).
Defined.

Lemma sync_guards_are_noops_witness :
  Store.sync (V:=Fixtures.lenient) (E:=Fixtures.keep_first) Fixtures.garden_heap
    0%nat 0%nat None 0
  = (Fixtures.garden_heap, Js.Returned (Store.mkSyncResults 0 0))
  ∧ Store.sync (V:=Fixtures.lenient) (E:=Fixtures.keep_first) Fixtures.garden_heap
      0%nat 2%nat None 0
    = (Fixtures.garden_heap, Js.Returned (Store.mkSyncResults 0 0)).
Proof.
  split.
  - apply (sync_guards_are_noops (V:=Fixtures.lenient) (E:=Fixtures.keep_first)
             Fixtures.garden_heap 0%nat 0%nat None 0).
    left; reflexivity.
  - apply (sync_guards_are_noops (V:=Fixtures.lenient) (E:=Fixtures.keep_first)
             Fixtures.garden_heap 0%nat 2%nat None 0).
    right; vm_compute; discriminate.
Defined.

(** C6 as stated fails: a store synced with itself under [live] returns
    zero counts instead of throwing. *)
Lemma sync_live_with_itself_returns :
  Store.live Fixtures.live_opts = Some true ∧
  Store.sync (V:=Fixtures.lenient) (E:=Fixtures.keep_first) Fixtures.garden_heap
    0%nat 0%nat (Some Fixtures.live_opts) 0
  = (Fixtures.garden_heap, Js.Returned (Store.mkSyncResults 0 0)).
Proof. split; reflexivity. Qed.

Lemma sync_live_throws_past_guards_witness :
  Store.sync (V:=Fixtures.lenient) (E:=Fixtures.keep_first) Fixtures.garden_heap
    0%nat 1%nat (Some Fixtures.live_opts) 0
  = (Fixtures.garden_heap, Js.Thrown "live sync not implemented yet").
Proof.
  apply (sync_live_throws_past_guards (V:=Fixtures.lenient) (E:=Fixtures.keep_first)
           Fixtures.garden_heap 0%nat 1%nat (Some Fixtures.live_opts) 0);
    [reflexivity | discriminate | reflexivity].
Defined.

(** * Properties of the sync over HTTP *)

Section RemoteProperties.

Import Js Remote Notions.
Context {S D : Type} {St : IStorage S D} {Net : Network D}.

Implicit Types (w : World S D).

Local Abbreviation frames := (Notions.frames (S:=S) (D:=D)).
Local Abbreviation visited := (Notions.visited (S:=S) (D:=D) (St:=St) (Net:=Net)).

Lemma bind_returned {A B} (m : M A) (k : A → M B) w b w' :
  (m ≫= k) w = (Returned b, w') →
  ∃ a w1, m w = (Returned a, w1) ∧ k a w1 = (Returned b, w').
Proof.
  unfold mbind, M_bind. destruct (m w) as [[a|e] w1]; [eauto|discriminate].
Qed.

Lemma frames_ret {A} (a : A) : frames (mret a : M A).
Proof. intros w o w' [= <- <-]. done. Qed.

Lemma frames_throw {A} e : frames (throw e : M A).
Proof. intros w o w' [= <- <-]. done. Qed.

Lemma frames_bind {A B} (m : M A) (k : A → M B) :
  frames m → (∀ a, frames (k a)) → frames (m ≫= k).
Proof.
  intros Hm Hk w o w'. unfold mbind, M_bind.
  destruct (m w) as [[a|e] w1] eqn:Hmw; destruct (Hm _ _ _ Hmw) as [Hs Ht].
  - intros Hka. destruct (Hk a _ _ _ Hka) as [Hs' Ht'].
    split; [congruence|by etrans].
  - intros [= <- <-]. done.
Qed.

Lemma frames_emit e : frames (emit e).
Proof. intros w o w' [= <- <-]. simpl. split; [done|by apply prefix_app_r]. Qed.

Lemma frames_getStorage : frames getStorage.
Proof. intros w o w' [= <- <-]. done. Qed.

Lemma frames_putStorage s : frames (putStorage s).
Proof. intros w o w' [= <- <-]. done. Qed.

Lemma frames_await_fetch req : frames (await_fetch req).
Proof. intros w o w' [= <- <-]. simpl. split; [done|by apply prefix_app_r]. Qed.

Lemma frames_for_of {A B} (l : list A) (body : B → A → M B) :
  (∀ b x, frames (body b x)) → ∀ b, frames (for_of l body b).
Proof.
  intros Hbody. induction l as [|x l IH]; intros b; simpl.
  - apply frames_ret.
  - apply frames_bind; [apply Hbody|apply IH].
Qed.

Create HintDb frames.
Hint Resolve frames_ret frames_throw frames_emit frames_getStorage
  frames_putStorage frames_await_fetch : frames.

Lemma frames_could_not_connect e : frames (could_not_connect e).
Proof. apply frames_bind; auto with frames. Qed.

Lemma frames_ingest_pulled stats doc : frames (ingest_pulled stats doc).
Proof.
  apply frames_bind; [auto with frames|]. intros s.
  destruct (ingestDocument s doc) as [s' ok].
  apply frames_bind; auto with frames.
Qed.

Lemma frames_pull_documents resp : frames (pull_documents resp).
Proof.
  unfold pull_documents. destruct (bool_decide _); [auto with frames|].
  apply frames_bind.
  - unfold json_docs. destruct (json resp) as [[docs|raw]|]; auto with frames.
  - intros docs. apply frames_for_of. apply frames_ingest_pulled.
Qed.

(** A pass never touches the sync state. *)
Lemma frames_syncLocalAndHttp domain : frames (syncLocalAndHttp domain).
Proof.
  unfold syncLocalAndHttp.
  apply frames_bind; [auto with frames|]; intros s.
  apply frames_bind; [auto with frames|]; intros [e|resp].
  { apply frames_bind; [apply frames_could_not_connect|auto with frames]. }
  apply frames_bind; [apply frames_pull_documents|]; intros stats.
  apply frames_bind; [auto with frames|]; intros s'.
  apply frames_bind; [auto with frames|]; intros [e|resp2].
  { apply frames_bind; [apply frames_could_not_connect|auto with frames]. }
  repeat (destruct (bool_decide _); [auto with frames|]).
  apply frames_bind; [|auto with frames].
  unfold json_any. destruct (json resp2); auto with frames.
Qed.

(** *** One pass *)

Local Ltac step :=
  unfold mbind, M_bind, mret, M_ret, getStorage, await_fetch,
    could_not_connect, emit; simpl.

(** C7, as amended.  A connection failure ends the pass at once and no
    exception escapes.  In the pull phase the result has both [pull] and
    [push] null and the storage is untouched.  In the push phase the
    result keeps the outcome the pull has recorded, with [push] null. *)
Theorem transport_failure_ends_pass domain w :
  let d := ensureTrailingSlash domain in
  let get := GET (urlGetDocuments d (workspace (storage w))) in
  (∀ e,
     fetch (trace w) get = Rejected e →
     syncLocalAndHttp domain w =
       (Returned (mkResultStats None None None),
        mkWorld (storage w) (state w)
          (trace w ++ [Fetch get;
                       ConsoleError "ERROR: could not connect to server";
                       ConsoleError e]))) ∧
  (∀ resp stats w1 e,
     fetch (trace w) get = Resolved resp →
     pull_documents resp
       (mkWorld (storage w) (state w) (trace w ++ [Fetch get]))
     = (Returned stats, w1) →
     let post := POST (urlPostDocuments d (workspace (storage w1)))
                      (documents (storage w1) true) in
     fetch (trace w1) post = Rejected e →
     syncLocalAndHttp domain w =
       (Returned (mkResultStats (Some stats) None None),
        mkWorld (storage w1) (state w1)
          (trace w1 ++ [Fetch post;
                        ConsoleError "ERROR: could not connect to server";
                        ConsoleError e]))).
Proof.
  intros d get. split.
  - intros e Hget. unfold syncLocalAndHttp. step. fold d get. rewrite Hget.
    step. by rewrite <-!app_assoc.
  - intros resp stats w1 e Hget Hpull post Hpost.
    unfold syncLocalAndHttp. step. fold d get. rewrite Hget. simpl.
    rewrite Hpull. step. fold post. rewrite Hpost. step.
    by rewrite <-!app_assoc.
Qed.

(** C8: when the GET answers 404, the pull outcome has its three
    counters at zero, the storage is the one the pass started with, and
    the POST of the retained documents follows the GET at once.  The pass
    returns, unless the answer to the POST itself cannot be decoded. *)
Theorem pull_404_then_push domain w resp :
  let d := ensureTrailingSlash domain in
  let url := urlGetDocuments d (workspace (storage w)) in
  fetch (trace w) (GET url) = Resolved resp →
  status resp = 404 →
  ∃ o w' rest,
    syncLocalAndHttp domain w = (o, w') ∧
    storage w' = storage w ∧
    trace w' = trace w ++ [Fetch (GET url);
                           Fetch (POST url (documents (storage w) true))] ++ rest ∧
    (∀ rs, o = Returned rs → pull rs = Some (mkPullStats 0 0 0)) ∧
    (∀ msg, o = Thrown msg →
       ∃ resp2, fetch (trace w ++ [Fetch (GET url)])
                      (POST url (documents (storage w) true)) = Resolved resp2 ∧
                status resp2 ≠ 404 ∧ status resp2 ≠ 403 ∧ json resp2 = None).
Proof.
  intros d url Hget H404.
  unfold syncLocalAndHttp. step. fold d url. rewrite Hget. simpl.
  unfold pull_documents. rewrite bool_decide_eq_true_2 by done. step.
  unfold urlPostDocuments. fold url.
  destruct (fetch _ (POST _ _)) as [e|resp2] eqn:Hpost; step.
  { eexists _, _, [_; _]. split; [done|]. simpl.
    split; [done|]. split; [by rewrite <-!app_assoc|]. split; [|done].
    by intros rs [= <-]. }
  case_bool_decide as H1.
  { eexists _, _, []. split; [done|]. simpl.
    split; [done|]. split; [by rewrite <-!app_assoc|]. split; [|done].
    by intros rs [= <-]. }
  case_bool_decide as H2.
  { eexists _, _, []. split; [done|]. simpl.
    split; [done|]. split; [by rewrite <-!app_assoc|]. split; [|done].
    by intros rs [= <-]. }
  unfold json_any. destruct (json resp2) as [v|] eqn:Hjson; step.
  - eexists _, _, []. split; [done|]. simpl.
    split; [done|]. split; [by rewrite <-!app_assoc|]. split; [|done].
    by intros rs [= <-].
  - eexists _, _, []. split; [done|]. simpl.
    split; [done|]. split; [by rewrite <-!app_assoc|]. split; [done|].
    intros msg _. by exists resp2.
Qed.

(** *** The syncer *)

Lemma updatePub_some i f w p :
  pubs (state w) !! i = Some p →
  updatePub i f w =
    (Returned tt,
     mkWorld (storage w) (setPubs (state w) (<[i := f p]> (pubs (state w))))
             (trace w)).
Proof. intros Hp. unfold updatePub. step. by rewrite Hp. Qed.

(** One turn of the loop of [sync], on a pub that is there. *)
Lemma sync_pub_returned c i w c' w' p :
  pubs (state w) !! i = Some p →
  sync_pub c i w = (Returned c', w') →
  ∃ rs wa wb,
    syncLocalAndHttp (domain p) wa = (Returned rs, wb) ∧
    pubs (state wa) !! i = Some (mkPub (domain p) Syncing (pub_lastSync p)) ∧
    trace w `prefix_of` trace wa ∧ trace wb `prefix_of` trace w' ∧
    syncState (state w') = syncState (state w) ∧
    lastSync (state w') = lastSync (state w) ∧
    ((pull rs = None ∧ push rs = None) ∧
       pubs (state w')
       = <[i := mkPub (domain p) Failure (pub_lastSync p)]> (pubs (state w)) ∧
       c' = (c.1, c.2 + 1)
     ∨ ¬ (pull rs = None ∧ push rs = None) ∧
       pubs (state w')
       = <[i := mkPub (domain p) Success (date_now (trace wb))]> (pubs (state w)) ∧
       c' = (c.1 + 1, c.2)).
Proof.
  intros Hp Hrun. pose proof (lookup_lt_Some _ _ _ Hp) as Hlt.
  unfold sync_pub in Hrun. unfold mbind, M_bind in Hrun.
  rewrite (updatePub_some _ _ _ p Hp) in Hrun.
  unfold notify, emit, getState in Hrun. simpl in Hrun.
  rewrite list_lookup_insert_eq in Hrun by done. simpl in Hrun.
  match type of Hrun with
  | context [syncLocalAndHttp _ ?x] => set (wa := x) in *
  end.
  destruct (syncLocalAndHttp (domain p) wa) as [[rs|e] wb] eqn:Hpass;
    [|discriminate].
  destruct (frames_syncLocalAndHttp _ _ _ _ Hpass) as [Hst Htr].
  assert (pubs (state wb) !! i
          = Some (mkPub (domain p) Syncing (pub_lastSync p))) as Hwb.
  { rewrite Hst. simpl. by rewrite list_lookup_insert_eq. }
  exists rs, wa, wb. split; [done|].
  split; [simpl; by rewrite list_lookup_insert_eq|].
  split; [by apply prefix_app_r|].
  case_bool_decide as Hnull.
  - rewrite (updatePub_some _ _ _ _ Hwb) in Hrun. simpl in Hrun.
    inversion Hrun; subst w' c'; clear Hrun. simpl.
    split; [by apply prefix_app_r|]. rewrite Hst. simpl.
    split; [done|]. split; [done|]. left. split; [done|].
    by rewrite list_insert_insert_eq.
  - rewrite (updatePub_some _ _ _ _ Hwb) in Hrun. simpl in Hrun.
    erewrite updatePub_some in Hrun.
    2:{ simpl. rewrite list_lookup_insert_eq; [done|].
        rewrite Hst. simpl. by rewrite length_insert. }
    simpl in Hrun.
    inversion Hrun; subst w' c'; clear Hrun. simpl.
    split; [by apply prefix_app_r|]. rewrite Hst. simpl.
    split; [done|]. split; [done|]. right. split; [done|].
    by rewrite !list_insert_insert_eq.
Qed.

Lemma visited_weaken w0 w w' w1 i p p' :
  trace w0 `prefix_of` trace w → trace w' `prefix_of` trace w1 →
  visited w w' i p p' → visited w0 w1 i p p'.
Proof.
  intros H0 H1 (Hd & rs & wa & wb & Hpass & Hmark & Ha & Hb & Hcase).
  split; [done|]. exists rs, wa, wb.
  split; [done|]. split; [done|]. split; [by etrans|]. split; [by etrans|done].
Qed.

Lemma for_of_sync_pub n : ∀ k c w c' w',
  (k + n ≤ length (pubs (state w)))%nat →
  for_of (seq k n) sync_pub c w = (Returned c', w') →
  let ps := pubs (state w) in
  let ps' := pubs (state w') in
  length ps' = length ps ∧
  trace w `prefix_of` trace w' ∧
  syncState (state w') = syncState (state w) ∧
  lastSync (state w') = lastSync (state w) ∧
  (∀ i, ¬ (k ≤ i < k + n)%nat → ps' !! i = ps !! i) ∧
  (∀ i p, (k ≤ i < k + n)%nat → ps !! i = Some p →
     ∃ p', ps' !! i = Some p' ∧ visited w w' i p p') ∧
  c.1 ≤ c'.1 ∧ c.2 ≤ c'.2 ∧
  (c.1 < c'.1 ↔
     ∃ i p', (k ≤ i < k + n)%nat ∧ ps' !! i = Some p' ∧ pub_syncState p' = Success) ∧
  (c.2 < c'.2 ↔
     ∃ i p', (k ≤ i < k + n)%nat ∧ ps' !! i = Some p' ∧ pub_syncState p' = Failure).
Proof.
  induction n as [|n IH]; intros k c w c' w' Hlen Hrun; cbv zeta.
  { inversion Hrun; subst c' w'; clear Hrun.
    repeat split; try done; try lia.
    - intros (i & p' & ? & _). lia.
    - intros (i & p' & ? & _). lia. }
  simpl in Hrun. apply bind_returned in Hrun as (c1 & w1 & Hstep & Hrest).
  set (ps := pubs (state w)) in *. set (ps' := pubs (state w')) in *.
  destruct (lookup_lt_is_Some_2 ps k) as [pk Hpk]; [lia|].
  pose proof (sync_pub_returned _ _ _ _ _ _ Hpk Hstep)
    as (rs & wa & wb & Hpass & Hmark & Hwa & Hwb & Hss & Hls & Hcase).
  set (pk' := if bool_decide (pull rs = None ∧ push rs = None)
              then mkPub (domain pk) Failure (pub_lastSync pk)
              else mkPub (domain pk) Success (date_now (trace wb))).
  assert (pubs (state w1) = <[k := pk']> ps) as Hps1.
  { unfold pk'. case_bool_decide; destruct Hcase as [(? & ? & ?)|(? & ? & ?)]; done. }
  assert (trace w `prefix_of` trace w1) as Hw1.
  { etrans; [exact Hwa|]. etrans; [|exact Hwb].
    by destruct (frames_syncLocalAndHttp _ _ _ _ Hpass). }
  destruct (IH (Datatypes.S k) c1 w1 c' w') as
    (Hl & Htr & Hss' & Hls' & Hout & Hin & Hc1 & Hc2 & Hsucc & Hfail); [|done|].
  { rewrite Hps1, length_insert. lia. }
  fold ps' in Hl, Hout, Hin, Hsucc, Hfail.
  rewrite Hps1 in Hl, Hout, Hin. rewrite length_insert in Hl.
  assert (ps' !! k = Some pk') as Hk'.
  { rewrite Hout by lia. apply list_lookup_insert_eq. lia. }
  assert (visited w w' k pk pk') as Hvis.
  { split; [unfold pk'; by case_bool_decide|].
    exists rs, wa, wb. split; [done|]. split; [done|]. split; [done|].
    split; [by etrans|].
    unfold pk'. case_bool_decide; [left|right]; done. }
  assert (c.1 ≤ c1.1 ∧ c.2 ≤ c1.2) as [Hc01 Hc02].
  { destruct Hcase as [(_ & _ & ->)|(_ & _ & ->)]; simpl; lia. }
  split; [done|]. split; [by etrans|]. split; [congruence|]. split; [congruence|].
  split; [|split; [|split; [lia|split; [lia|split]]]].
  - intros i Hi. rewrite Hout by lia. apply list_lookup_insert_ne. lia.
  - intros i p Hi Hp. destruct (decide (i = k)) as [->|Hne].
    + exists pk'. split; [done|]. rewrite Hpk in Hp. by injection Hp as <-.
    + destruct (Hin i p) as (p' & Hp' & Hv); [lia| |].
      { rewrite list_lookup_insert_ne by done. done. }
      exists p'. split; [done|]. by apply (visited_weaken w w1 w' w').
  - split.
    + intros Hlt. destruct (decide (c1.1 < c'.1)) as [Hlt1|Hge].
      * apply Hsucc in Hlt1 as (i & p' & ? & ? & ?).
        exists i, p'. split; [lia|done].
      * exists k, pk'. split; [lia|]. split; [done|].
        unfold pk'. destruct Hcase as [(_ & _ & Hc)|(Hn & _ & _)].
        -- rewrite Hc in Hge. simpl in Hge. lia.
        -- by rewrite bool_decide_eq_false_2.
    + intros (i & p' & Hi & Hp' & Hs). destruct (decide (i = k)) as [->|Hne].
      * assert (p' = pk') as -> by congruence.
        destruct Hcase as [(Hn & _ & _)|(_ & _ & Hc)].
        -- unfold pk' in Hs. by rewrite bool_decide_eq_true_2 in Hs.
        -- rewrite Hc in Hc1. simpl in Hc1. lia.
      * assert (c1.1 < c'.1); [|lia]. apply Hsucc. exists i, p'.
        split; [lia|done].
  - split.
    + intros Hlt. destruct (decide (c1.2 < c'.2)) as [Hlt1|Hge].
      * apply Hfail in Hlt1 as (i & p' & ? & ? & ?).
        exists i, p'. split; [lia|done].
      * exists k, pk'. split; [lia|]. split; [done|].
        unfold pk'. destruct Hcase as [(Hn & _ & _)|(_ & _ & Hc)].
        -- by rewrite bool_decide_eq_true_2.
        -- rewrite Hc in Hge. simpl in Hge. lia.
    + intros (i & p' & Hi & Hp' & Hs). destruct (decide (i = k)) as [->|Hne].
      * assert (p' = pk') as -> by congruence.
        destruct Hcase as [(_ & _ & Hc)|(Hn & _ & _)].
        -- rewrite Hc in Hc2. simpl in Hc2. lia.
        -- unfold pk' in Hs. by rewrite bool_decide_eq_false_2 in Hs.
      * assert (c1.2 < c'.2); [|lia]. apply Hfail. exists i, p'.
        split; [lia|done].
Qed.

(** A round that returns has visited the whole list and leaves every
    pub classified: a failure exactly when its pass came back with [pull]
    and [push] both null, a success otherwise, the last-sync time being
    written on success only.  The aggregate is success when some pub
    succeeded, failure when there are pubs and all of them failed, and
    idle when there is no pub. *)
Lemma sync_returned_classifies w w' :
  sync w = (Returned tt, w') →
  let ps := pubs (state w) in
  let ps' := pubs (state w') in
  length ps' = length ps ∧
  (∀ i p, ps !! i = Some p → ∃ p', ps' !! i = Some p' ∧ visited w w' i p p') ∧
  ((∃ p', p' ∈ ps' ∧ pub_syncState p' = Success) →
     syncState (state w') = Success) ∧
  (ps ≠ [] → (∀ p', p' ∈ ps' → pub_syncState p' = Failure) →
     syncState (state w') = Failure) ∧
  (ps = [] → syncState (state w') = Idle).
Proof.
  intros Hrun; cbv zeta. unfold sync in Hrun.
  unfold mbind at 1 2 3 4, M_bind at 1 2 3 4 in Hrun.
  unfold getState, putState, notify, emit in Hrun. simpl in Hrun.
  match type of Hrun with
  | mbind _ _ ?x = _ => set (w0 := x) in *
  end.
  apply bind_returned in Hrun as (c & w1 & Hloop & Hrest).
  unfold mbind, M_bind, now in Hrest. simpl in Hrest.
  inversion Hrest; subst w'; clear Hrest. simpl.
  apply for_of_sync_pub in Hloop; [|simpl; lia]. simpl in Hloop.
  destruct Hloop as (Hl & Htr & _ & _ & _ & Hin & _ & _ & Hsucc & Hfail).
  assert (trace w `prefix_of` trace w0) as Hw0 by (by apply prefix_app_r).
  split; [done|]. split; [|split; [|split]].
  - intros i p Hp. pose proof (lookup_lt_Some _ _ _ Hp) as Hlt.
    destruct (Hin i p) as (p' & Hp' & Hv); [lia|done|].
    exists p'. split; [done|].
    apply (visited_weaken w w0 w1); [done| |done].
    simpl. rewrite <-app_assoc. by apply prefix_app_r.
  - intros (p' & [i Hi]%list_elem_of_lookup & Hs).
    pose proof (lookup_lt_Some _ _ _ Hi) as Hlt.
    rewrite bool_decide_eq_true_2; [done|].
    apply Hsucc. exists i, p'. split; [lia|done].
  - intros Hne Hall.
    rewrite bool_decide_eq_false_2.
    + rewrite bool_decide_eq_true_2; [done|].
      destruct (pubs (state w1)) as [|p0 l] eqn:Hps1.
      { destruct (pubs (state w)); [done|discriminate]. }
      apply Hfail. exists 0%nat, p0. split; [simpl in Hl; lia|].
      split; [done|]. apply Hall. apply list_elem_of_here.
    + intros (i & p' & _ & Hi & Hs)%Hsucc.
      rewrite (Hall p') in Hs; [discriminate|].
      by eapply list_elem_of_lookup_2.
  - intros Hnil. rewrite Hnil in *. simpl in *.
    rewrite bool_decide_eq_false_2.
    + rewrite bool_decide_eq_false_2; [done|].
      intros (i & p' & ? & _)%Hfail. lia.
    + intros (i & p' & ? & _)%Hsucc. lia.
Qed.

(** *** A round that a pass interrupts *)

(** A turn of the loop of [sync] that throws: only the pass can throw,
    and it leaves the pub marked as syncing. *)
Lemma sync_pub_thrown c i w e w' p :
  pubs (state w) !! i = Some p →
  sync_pub c i w = (Thrown e, w') →
  ∃ wa,
    syncLocalAndHttp (domain p) wa = (Thrown e, w') ∧
    pubs (state wa) !! i = Some (mkPub (domain p) Syncing (pub_lastSync p)) ∧
    trace w `prefix_of` trace wa ∧
    state w'
    = setPubs (state w)
        (<[i := mkPub (domain p) Syncing (pub_lastSync p)]> (pubs (state w))).
Proof.
  intros Hp Hrun. pose proof (lookup_lt_Some _ _ _ Hp) as Hlt.
  unfold sync_pub in Hrun. unfold mbind, M_bind in Hrun.
  rewrite (updatePub_some _ _ _ p Hp) in Hrun.
  unfold notify, emit, getState in Hrun. simpl in Hrun.
  rewrite list_lookup_insert_eq in Hrun by done. simpl in Hrun.
  match type of Hrun with
  | context [syncLocalAndHttp _ ?x] => set (wa := x) in *
  end.
  destruct (syncLocalAndHttp (domain p) wa) as [[rs|e'] wb] eqn:Hpass.
  - exfalso.
    destruct (frames_syncLocalAndHttp _ _ _ _ Hpass) as [Hst Htr].
    assert (pubs (state wb) !! i
            = Some (mkPub (domain p) Syncing (pub_lastSync p))) as Hwb.
    { rewrite Hst. simpl. by rewrite list_lookup_insert_eq. }
    case_bool_decide as Hnull.
    + rewrite (updatePub_some _ _ _ _ Hwb) in Hrun. discriminate.
    + unfold now in Hrun. rewrite (updatePub_some _ _ _ _ Hwb) in Hrun.
      simpl in Hrun. erewrite updatePub_some in Hrun; [discriminate|].
      simpl. rewrite list_lookup_insert_eq; [done|].
      rewrite Hst. simpl. by rewrite length_insert.
  - injection Hrun as <- <-. exists wa. split; [done|].
    split; [simpl; by rewrite list_lookup_insert_eq|].
    split; [by apply prefix_app_r|].
    by destruct (frames_syncLocalAndHttp _ _ _ _ Hpass) as [-> _].
Qed.

(** The loop of [sync], when it throws: the pubs before the one whose
    pass threw have been visited, that pub is left marked as syncing, and
    the pubs after it are as they were. *)
Lemma for_of_sync_pub_thrown n : ∀ k c w e w',
  (k + n ≤ length (pubs (state w)))%nat →
  for_of (seq k n) sync_pub c w = (Thrown e, w') →
  let ps := pubs (state w) in
  let ps' := pubs (state w') in
  length ps' = length ps ∧
  trace w `prefix_of` trace w' ∧
  syncState (state w') = syncState (state w) ∧
  lastSync (state w') = lastSync (state w) ∧
  ∃ i p wa,
    (k ≤ i < k + n)%nat ∧ ps !! i = Some p ∧
    syncLocalAndHttp (domain p) wa = (Thrown e, w') ∧
    pubs (state wa) !! i = Some (mkPub (domain p) Syncing (pub_lastSync p)) ∧
    trace w `prefix_of` trace wa ∧
    ps' !! i = Some (mkPub (domain p) Syncing (pub_lastSync p)) ∧
    (∀ j q, (k ≤ j < i)%nat → ps !! j = Some q →
       ∃ q', ps' !! j = Some q' ∧ visited w w' j q q') ∧
    (∀ j, ¬ (k ≤ j ≤ i)%nat → ps' !! j = ps !! j).
Proof.
  induction n as [|n IH]; intros k c w e w' Hlen Hrun; cbv zeta; [discriminate|].
  set (ps := pubs (state w)) in *. set (ps' := pubs (state w')) in *.
  destruct (lookup_lt_is_Some_2 ps k) as [pk Hpk]; [lia|].
  cbn [seq for_of] in Hrun. unfold mbind, M_bind in Hrun.
  destruct (sync_pub c k w) as [[c1|e1] w1] eqn:Hstep.
  - pose proof (sync_pub_returned _ _ _ _ _ _ Hpk Hstep)
      as (rs & wa & wb & Hpass & Hmark & Hwa & Hwb & Hss & Hls & Hcase).
    set (pk' := if bool_decide (pull rs = None ∧ push rs = None)
                then mkPub (domain pk) Failure (pub_lastSync pk)
                else mkPub (domain pk) Success (date_now (trace wb))).
    assert (pubs (state w1) = <[k := pk']> ps) as Hps1.
    { unfold pk'. case_bool_decide; destruct Hcase as [(? & ? & ?)|(? & ? & ?)]; done. }
    assert (trace w `prefix_of` trace w1) as Hw1.
    { etrans; [exact Hwa|]. etrans; [|exact Hwb].
      by destruct (frames_syncLocalAndHttp _ _ _ _ Hpass). }
    destruct (IH (Datatypes.S k) c1 w1 e w') as
      (Hl & Htr & Hss' & Hls' & i & p & wa' & Hi & Hp & Hthrown & Hmark' & Hwa'
       & Hleft & Hbefore & Hout); [|done|].
    { rewrite Hps1, length_insert. lia. }
    fold ps' in Hl, Hleft, Hbefore, Hout.
    rewrite Hps1 in Hl, Hp, Hbefore, Hout. rewrite length_insert in Hl.
    rewrite list_lookup_insert_ne in Hp by lia.
    assert (ps' !! k = Some pk') as Hk'.
    { rewrite Hout by lia. apply list_lookup_insert_eq. lia. }
    assert (visited w w' k pk pk') as Hvis.
    { split; [unfold pk'; by case_bool_decide|].
      exists rs, wa, wb. split; [done|]. split; [done|]. split; [done|].
      split; [by etrans|].
      unfold pk'. case_bool_decide; [left|right]; done. }
    split; [done|]. split; [by etrans|]. split; [congruence|]. split; [congruence|].
    exists i, p, wa'. split; [lia|]. split; [done|]. split; [done|].
    split; [done|]. split; [by etrans|]. split; [done|]. split.
    + intros j q Hj Hq. destruct (decide (j = k)) as [->|Hne].
      * exists pk'. split; [done|]. rewrite Hpk in Hq. by injection Hq as <-.
      * destruct (Hbefore j q) as (q' & Hq' & Hv); [lia| |].
        { by rewrite list_lookup_insert_ne. }
        exists q'. split; [done|]. by apply (visited_weaken w w1 w' w').
    + intros j Hj. rewrite Hout by lia. apply list_lookup_insert_ne. lia.
  - injection Hrun as <- <-.
    destruct (sync_pub_thrown _ _ _ _ _ _ Hpk Hstep)
      as (wa & Hthrown & Hmark & Hwa & Hst).
    destruct (frames_syncLocalAndHttp _ _ _ _ Hthrown) as [_ Htr].
    unfold ps'. rewrite Hst. simpl. fold ps.
    split; [by rewrite length_insert|]. split; [by etrans|].
    split; [done|]. split; [done|].
    exists k, pk, wa. split; [lia|]. split; [done|]. split; [done|].
    split; [done|]. split; [done|].
    split; [apply list_lookup_insert_eq; by eapply lookup_lt_Some|]. split.
    + intros j q Hj. lia.
    + intros j Hj. apply list_lookup_insert_ne. lia.
Qed.


End RemoteProperties.

(** C7 as stated fails: the first pub answers the GET with 404 and drops
    the connection on the POST; the result of the pass keeps the pull
    outcome, only [push] is null. *)
Lemma push_failure_keeps_pull_outcome :
  Remote.fetch (Network:=Fixtures.three_pubs)
    [Remote.Fetch (Remote.GET "https://one.example/earthstar-api/v1/workspace/garden/documents")]
    (Remote.POST "https://one.example/earthstar-api/v1/workspace/garden/documents"
       [Fixtures.nine])
  = Remote.Rejected "ECONNRESET" ∧
  (Remote.syncLocalAndHttp (St:=Fixtures.garden_storage) (Net:=Fixtures.three_pubs)
     "https://one.example" Fixtures.garden_syncer).1
  = Js.Returned
      (Remote.mkResultStats (Some (Remote.mkPullStats 0 0 0)) None None).
Proof. split; by vm_compute. Qed.

Lemma transport_failure_ends_pass_witness :
  (Remote.syncLocalAndHttp (St:=Fixtures.garden_storage) (Net:=Fixtures.three_pubs)
     "https://two.example" Fixtures.garden_syncer).1
  = Js.Returned (Remote.mkResultStats None None None)
  ∧ (Remote.syncLocalAndHttp (St:=Fixtures.garden_storage) (Net:=Fixtures.three_pubs)
       "https://one.example" Fixtures.garden_syncer).1
    = Js.Returned
        (Remote.mkResultStats (Some (Remote.mkPullStats 0 0 0)) None None).
Proof.
  split.
  - rewrite (proj1 (transport_failure_ends_pass
                      (St:=Fixtures.garden_storage) (Net:=Fixtures.three_pubs)
                      "https://two.example" Fixtures.garden_syncer)
               "ECONNREFUSED"); reflexivity.
  - erewrite (proj2 (transport_failure_ends_pass
                       (St:=Fixtures.garden_storage) (Net:=Fixtures.three_pubs)
                       "https://one.example" Fixtures.garden_syncer)
                (Remote.mkResponse 404 None) (Remote.mkPullStats 0 0 0));
      reflexivity.
Defined.

Lemma pull_404_then_push_witness :
  ∃ o w' rest,
    Remote.syncLocalAndHttp (St:=Fixtures.garden_storage) (Net:=Fixtures.three_pubs)
      "https://three.example" Fixtures.garden_syncer = (o, w') ∧
    Remote.storage w' = Fixtures.holds_nine ∧
    Remote.trace w'
    = [Remote.Fetch
         (Remote.GET "https://three.example/earthstar-api/v1/workspace/garden/documents");
       Remote.Fetch
         (Remote.POST "https://three.example/earthstar-api/v1/workspace/garden/documents"
            [Fixtures.nine])] ++ rest ∧
    (∀ rs, o = Js.Returned rs →
           Remote.pull rs = Some (Remote.mkPullStats 0 0 0)).
Proof.
  destruct (pull_404_then_push (St:=Fixtures.garden_storage) (Net:=Fixtures.three_pubs)
              "https://three.example" Fixtures.garden_syncer
              (Remote.mkResponse 404 None) eq_refl eq_refl)
    as (o & w' & rest & Hrun & Hst & Htr & Hpull & _).
  exists o, w', rest. split; [exact Hrun|]. split; [exact Hst|].
  split; [exact Htr|exact Hpull].
Defined.



(** * Writes and merges, one primary key at a time *)

Section SlotProperties.

Import Js Store Fixtures Notions.
Context {V : Validator} {E : Sqlite}.

Lemma ingestItem_keeps this d now :
  ingestItem this d None now =
    if keeps now (db this !! slot_of d) d
    then (insert_or_replace this d, true) else (this, false).
Proof.
  rewrite ingestItem_cases. unfold keeps, slot_of.
  destruct (itemIsValid d None now); simpl; [|done].
  destruct (db this !! (key d, author d)) as [m|]; [|done].
  by destruct (array_le _ _ _ _).
Qed.

Lemma filter_ext_in {A} (P Q : A → Prop) `{∀ x, Decision (P x)}
    `{∀ x, Decision (Q x)} (l : list A) :
  (∀ x, x ∈ l → P x ↔ Q x) → filter P l = filter Q l.
Proof.
  induction l as [|x l IH]; intros HPQ; [done|].
  rewrite !filter_cons, IH by (intros y Hy; apply HPQ; by right).
  destruct (decide (P x)) as [HP|HP], (decide (Q x)) as [HQ|HQ]; try done;
    exfalso; apply (HPQ x) in HP || apply (HPQ x) in HQ; try done; by left.
Qed.

Lemma filter_none {A} (P : A → Prop) `{∀ x, Decision (P x)} (l : list A) :
  (∀ x, x ∈ l → ¬ P x) → filter P l = [].
Proof.
  induction l as [|x l IH]; intros HP; [done|].
  rewrite filter_cons, decide_False by (apply HP; by left).
  apply IH. intros y Hy. apply HP. by right.
Qed.

(** Items of pairwise distinct primary keys are decided independently of
    one another. *)
Lemma ingest_counting_slots now l : ∀ s c,
  NoDup (slot_of <$> l) →
  let r := foldl (ingest_counting now) (s, c) l in
  store_workspace r.1 = store_workspace s ∧
  (∀ d, d ∈ l →
     db r.1 !! slot_of d
     = if keeps now (db s !! slot_of d) d then Some (row_of d)
       else db s !! slot_of d) ∧
  (∀ ka, ka ∉ slot_of <$> l → db r.1 !! ka = db s !! ka) ∧
  r.2 = c + Z.of_nat (length (filter (λ d, Is_true (keeps now (db s !! slot_of d) d)) l)).
Proof.
  induction l as [|d l IH]; intros s c Hnd; cbv zeta; simpl.
  { repeat split; [by intros d Hd%elem_of_nil|lia]. }
  rewrite fmap_cons in Hnd. apply NoDup_cons in Hnd as [Hd Hnd].
  set (s1 := if keeps now (db s !! slot_of d) d then insert_or_replace s d else s).
  set (c1 := if keeps now (db s !! slot_of d) d then c + 1 else c).
  assert (ingest_counting now (s, c) d = (s1, c1)) as ->.
  { unfold ingest_counting, s1, c1. simpl. rewrite ingestItem_keeps.
    by destruct (keeps _ _ _). }
  assert (∀ ka, ka ≠ slot_of d → db s1 !! ka = db s !! ka) as Hother.
  { intros ka Hka. unfold s1. destruct (keeps _ _ _); [|done].
    simpl. by rewrite lookup_insert_ne. }
  assert (db s1 !! slot_of d
          = if keeps now (db s !! slot_of d) d then Some (row_of d)
            else db s !! slot_of d) as Hhere.
  { unfold s1. destruct (keeps _ _ _); [|done]. simpl. by rewrite lookup_insert_eq. }
  assert (store_workspace s1 = store_workspace s) as Hws.
  { unfold s1. by destruct (keeps _ _ _). }
  destruct (IH s1 c1 Hnd) as (IHws & IHin & IHout & IHc).
  cbv zeta in *.
  split; [congruence|]. split; [|split].
  - intros d' [->|Hd']%elem_of_cons.
    + rewrite IHout; [done|]. done.
    + assert (slot_of d' ≠ slot_of d) as Hne.
      { intros Heq. apply Hd. rewrite <-Heq. by apply list_elem_of_fmap_2. }
      rewrite (IHin d' Hd'), (Hother _ Hne). done.
  - intros ka Hka.
    apply not_elem_of_cons in Hka as [Hne Hka].
    rewrite (IHout ka Hka). by apply Hother.
  - rewrite IHc. rewrite filter_cons.
    assert (filter (λ d0, Is_true (keeps now (db s1 !! slot_of d0) d0)) l
            = filter (λ d0, Is_true (keeps now (db s !! slot_of d0) d0)) l) as ->.
    { apply filter_ext_in. intros d' Hd'.
      assert (slot_of d' ≠ slot_of d) as Hne.
      { intros Heq. apply Hd. rewrite <-Heq. by apply list_elem_of_fmap_2. }
      by rewrite (Hother _ Hne). }
    unfold c1. destruct (keeps now (db s !! slot_of d) d); simpl; lia.
Qed.

Lemma slots_of_rows (t : Table) : slot_of <$> rows t = (map_to_list t).*1.
Proof.
  unfold rows. rewrite <-list_fmap_compose. apply list_fmap_ext.
  by intros i [[k a] r] _.
Qed.

Lemma NoDup_slots_of_items this : NoDup (slot_of <$> items this withHistory).
Proof.
  rewrite (items_withHistory_perm this), slots_of_rows.
  apply NoDup_fst_map_to_list.
Qed.

Lemma elem_of_rows_lookup (t : Table) ka r :
  t !! ka = Some r ↔ item_of ka r ∈ rows t.
Proof. rewrite elem_of_rows. by destruct ka, r. Qed.

Lemma slot_in_rows (t : Table) ka :
  ka ∈ slot_of <$> rows t ↔ is_Some (t !! ka).
Proof.
  rewrite list_elem_of_fmap. split.
  - intros (d & -> & Hd%elem_of_rows). by eexists.
  - intros [r Hr]. exists (item_of ka r). split; [by destruct ka|].
    by apply elem_of_rows_lookup.
Qed.

(** What [_syncFrom] does when it reads the other store: the receiving
    store is replaced by one that holds the merge under every primary
    key, and the count is the number of rows taken. *)
Lemma syncFrom_existing (h : Heap) this otherStore now :
  ∃ s,
    _syncFrom h this otherStore true false now
    = (<[this := s]> h,
       Returned (Z.of_nat (length
         (filter (λ d, Is_true (keeps now (db (h this) !! slot_of d) d))
                 (rows (db (h otherStore))))))) ∧
    store_workspace s = store_workspace (h this) ∧
    ∀ ka, db s !! ka
          = merge_slot now ka (db (h this) !! ka) (db (h otherStore) !! ka).
Proof.
  unfold _syncFrom.
  pose proof (ingest_counting_slots now (items (h otherStore) withHistory)
                (h this) 0 (NoDup_slots_of_items _)) as Hfold.
  cbv zeta in Hfold.
  destruct (foldl _ _ _) as [s n]. simpl in Hfold.
  destruct Hfold as (Hws & Hin & Hout & Hn).
  exists s. split; [|split; [done|]].
  - do 2 f_equal. rewrite Hn, Z.add_0_l. f_equal.
    apply Permutation_length, filter_Permutation, items_withHistory_perm.
  - intros ka. unfold merge_slot.
    destruct (db (h otherStore) !! ka) as [r|] eqn:Hr.
    + assert (item_of ka r ∈ items (h otherStore) withHistory) as Hd.
      { rewrite items_withHistory_perm. by apply elem_of_rows_lookup. }
      apply Hin in Hd. by destruct ka, r.
    + apply Hout. rewrite items_withHistory_perm, slot_in_rows, Hr.
      by intros [? ?].
Qed.

Lemma syncFrom_frame (h : Heap) this otherStore existing live now r :
  r ≠ this → (_syncFrom h this otherStore existing live now).1 r = h r.
Proof.
  intros Hr. destruct live, existing; try done.
  destruct (syncFrom_existing h this otherStore now) as (s & -> & _).
  simpl. by rewrite fn_lookup_insert_ne.
Qed.

Lemma keeps_identical now ka r : keeps now (Some r) (item_of ka r) = false.
Proof.
  unfold keeps. simpl. rewrite array_le_refl. by destruct (itemIsValid _ _ _).
Qed.

Lemma keeps_after_merge now ka mine r :
  keeps now (merge_slot now ka mine (Some r)) (item_of ka r) = false.
Proof.
  unfold merge_slot. destruct (keeps now mine _) eqn:Hk; [|done].
  apply keeps_identical.
Qed.

Lemma merge_slot_same now ka m : merge_slot now ka m m = m.
Proof.
  destruct m as [r|]; [|done]. unfold merge_slot. by rewrite keeps_identical.
Qed.

Lemma merge_slot_again now ka mine theirs :
  merge_slot now ka (merge_slot now ka mine theirs) theirs
  = merge_slot now ka mine theirs.
Proof.
  destruct theirs as [r|]; [|done].
  unfold merge_slot at 1. by rewrite keeps_after_merge.
Qed.

Lemma store_eq (s s' : StoreSqlite) :
  store_workspace s = store_workspace s' → (∀ ka, db s !! ka = db s' !! ka) → s = s'.
Proof.
  destruct s as [w t], s' as [w' t']. simpl. intros -> Hdb.
  f_equal. by apply map_eq.
Qed.

Lemma keeps_rendering now ka (m t : Row) :
  keeps now (Some m) (item_of ka t)
  = itemIsValid (item_of ka t) None now && negb (String.leb (rendering t) (rendering m)).
Proof. unfold keeps, rendering, array_le. simpl. by rewrite string_le_leb. Qed.

(** Two stores whose rows are all valid, and never differ under a primary
    key without differing in the text compared, agree under that key once
    each has been offered the row of the other. *)
Lemma merge_slot_converges now ka mine theirs :
  (∀ m, mine = Some m → itemIsValid (item_of ka m) None now = true) →
  (∀ t, theirs = Some t → itemIsValid (item_of ka t) None now = true) →
  (∀ m t, mine = Some m → theirs = Some t → rendering m = rendering t → m = t) →
  merge_slot now ka theirs (merge_slot now ka mine theirs)
  = merge_slot now ka mine theirs.
Proof.
  intros Hm Ht Htie.
  destruct mine as [m|], theirs as [t|]; simpl; try done.
  - rewrite keeps_rendering, (Ht t eq_refl). simpl.
    destruct (String.leb (rendering t) (rendering m)) eqn:Htm; simpl.
    + rewrite keeps_rendering, (Hm m eq_refl). simpl.
      destruct (String.leb (rendering m) (rendering t)) eqn:Hmt; simpl; [|done].
      f_equal. symmetry. apply Htie; [done..|].
      apply (anti_symm String.le); by apply Is_true_true.
    + by rewrite keeps_identical.
  - unfold keeps. by rewrite (Hm m eq_refl).
  - unfold keeps. rewrite (Ht t eq_refl). simpl. by rewrite keeps_identical.
Qed.

(** X2: [_syncFrom], reading the other store, merges the two tables one
    primary key at a time: where the other store has a valid row that the
    receiving store lacks, or holds with a text [timestamp,signature]
    that sorts lower, the row is taken; every other row of the receiving
    store stays.  The count returned is the number of rows taken, and no
    store but the receiving one changes.  The timestamps are integers
    that a double holds exactly. *)
Theorem syncFrom_merges_each_slot (h : Heap) this otherStore now :
  safe_store (h this) → safe_store (h otherStore) →
  let h' := (_syncFrom h this otherStore true false now).1 in
  _syncFrom h this otherStore true false now
  = (h', Returned (Z.of_nat (length
       (filter (λ d, Is_true (keeps now (db (h this) !! slot_of d) d))
               (rows (db (h otherStore))))))) ∧
  (∀ ka, db (h' this) !! ka
         = merge_slot now ka (db (h this) !! ka) (db (h otherStore) !! ka)) ∧
  store_workspace (h' this) = store_workspace (h this) ∧
  ∀ r, r ≠ this → h' r = h r.
Proof.
  intros _ _ h'. unfold h'.
  destruct (syncFrom_existing h this otherStore now) as (s & -> & Hws & Hdb).
  simpl. rewrite fn_lookup_insert. repeat split; [done..|].
  intros r Hr. by rewrite fn_lookup_insert_ne.
Qed.


(** X4: a sync in both directions between two distinct stores of one
    workspace, all of whose rows are valid and differ in the text
    [timestamp,signature] wherever they differ under one primary key,
    returns and leaves both stores with the same table: the merge, one
    primary key at a time, of the two tables.  The timestamps are
    integers that a double holds exactly. *)
Theorem sync_both_converges (h : Heap) this otherStore opts now :
  otherStore ≠ this →
  store_workspace (h this) = store_workspace (h otherStore) →
  default Both (opts ≫= direction) = Both →
  default true (opts ≫= existing) = true →
  default false (opts ≫= live) = false →
  safe_store (h this) → safe_store (h otherStore) →
  (∀ d, d ∈ rows (db (h this)) ∨ d ∈ rows (db (h otherStore)) →
        itemIsValid d None now = true) →
  (∀ ka m t, db (h this) !! ka = Some m → db (h otherStore) !! ka = Some t →
             rendering m = rendering t → m = t) →
  ∃ h' res,
    sync h this otherStore opts now = (h', Returned res) ∧
    db (h' this) = db (h' otherStore) ∧
    (∀ ka, db (h' this) !! ka
           = merge_slot now ka (db (h this) !! ka) (db (h otherStore) !! ka)) ∧
    (∀ ka, is_Some (db (h' this) !! ka)
           ↔ is_Some (db (h this) !! ka) ∨ is_Some (db (h otherStore) !! ka)).
Proof.
  intros Hne Hws Hdir Hex Hlive _ _ Hvalid Htie. unfold sync.
  rewrite decide_False, bool_decide_eq_true_2 by done. simpl.
  rewrite Hdir, Hex, Hlive.
  destruct (syncFrom_existing h this otherStore now) as (s1 & -> & Hws1 & Hdb1).
  set (h1 := <[this := s1]> h).
  assert (h1 this = s1) as Hthis by apply fn_lookup_insert.
  assert (h1 otherStore = h otherStore) as Hother
    by (by apply fn_lookup_insert_ne).
  destruct (syncFrom_existing h1 otherStore this now) as (s2 & -> & Hws2 & Hdb2).
  rewrite Hthis, Hother in *.
  assert (∀ ka, db s2 !! ka = db s1 !! ka) as Hsame.
  { intros ka. rewrite Hdb2, Hdb1. apply merge_slot_converges.
    - intros m Hm. apply Hvalid. left. by apply elem_of_rows_lookup.
    - intros t Ht. apply Hvalid. right. by apply elem_of_rows_lookup.
    - apply Htie. }
  eexists _, _. split; [done|].
  rewrite fn_lookup_insert, fn_lookup_insert_ne, Hthis by done.
  split; [|split].
  - apply map_eq. intros ka. by rewrite Hsame.
  - done.
  - intros ka. rewrite Hdb1. unfold merge_slot.
    destruct (db (h otherStore) !! ka) as [t|] eqn:Ht.
    + destruct (keeps _ _ _) eqn:Hk; [split; eauto|].
      unfold keeps in Hk. rewrite Hvalid in Hk
        by (right; by apply elem_of_rows_lookup).
      destruct (db (h this) !! ka); [split; eauto|done].
    + split; [by left|]. intros [?|[? [=]]]. done.
Qed.

(** Whatever its flags, [_syncFrom] leaves the workspace of every store
    alone and adds to the receiving store only valid rows of the other
    store. *)
Lemma syncFrom_rows (h : Heap) this otherStore existing live now r :
  let h' := (_syncFrom h this otherStore existing live now).1 in
  store_workspace (h' r) = store_workspace (h r) ∧
  ∀ d, d ∈ rows (db (h' r)) →
       d ∈ rows (db (h r))
       ∨ (r = this ∧ d ∈ rows (db (h otherStore)) ∧ itemIsValid d None now = true).
Proof.
  intros h'. unfold h'. destruct live, existing; try (split; [done|by left]).
  destruct (syncFrom_existing h this otherStore now) as (s & -> & Hws & Hdb).
  simpl. destruct (decide (r = this)) as [->|Hr].
  2:{ rewrite fn_lookup_insert_ne by done. split; [done|by left]. }
  rewrite fn_lookup_insert. split; [done|].
  intros d. rewrite !elem_of_rows, Hdb. unfold merge_slot.
  destruct (db (h otherStore) !! _) as [t|] eqn:Ht; [|by left].
  destruct (keeps _ _ _) eqn:Hk; [|by left].
  intros [= ->]. right. split; [done|]. split; [done|].
  unfold keeps in Hk. apply andb_true_iff in Hk as [Hk _].
  by rewrite item_of_row_of in Hk.
Qed.

(** The heap a sync leaves, past the guards, by direction. *)
Lemma sync_heap (h : Heap) this otherStore opts now :
  (sync h this otherStore opts now).1 = h ∨
  ∃ existing live,
    let h1 := (_syncFrom h this otherStore existing live now).1 in
    (sync h this otherStore opts now).1
    = match default Both (opts ≫= direction) with
      | Pull => h1
      | Push => (_syncFrom h otherStore this existing live now).1
      | Both => (_syncFrom h1 otherStore this existing live now).1
      end.
Proof.
  unfold sync. destruct (decide _); [by left|].
  destruct (negb _); [by left|]. right.
  exists (default true (opts ≫= existing)), (default false (opts ≫= live)).
  destruct (default false (opts ≫= live)).
  { by destruct (default Both _). }
  destruct (default true (opts ≫= existing)).
  2:{ by destruct (default Both _). }
  destruct (default Both _).
  - by destruct (_syncFrom h otherStore this true false now) as [h2 [k|e]].
  - by destruct (_syncFrom h this otherStore true false now) as [h1 [k|e]].
  - destruct (syncFrom_existing h this otherStore now) as (s & -> & _).
    cbn [fst].
    by destruct (_syncFrom (<[this:=s]> h) otherStore this true false now)
      as [h2 [k|e]].
Qed.

(** X5: a sync writes only where its direction says, and only valid rows
    of the other of the two stores: a store that is neither of the two is
    left as it was, a pull leaves the other store and a push the calling
    store as it was, no workspace changes, and a row found in a store
    afterwards was there before or is a valid row the other store had. *)
Theorem sync_writes_where_directed (h : Heap) this otherStore opts now :
  let h' := (sync h this otherStore opts now).1 in
  (∀ r, r ≠ this → r ≠ otherStore → h' r = h r) ∧
  (opts ≫= direction = Some Pull → ∀ r, r ≠ this → h' r = h r) ∧
  (opts ≫= direction = Some Push → ∀ r, r ≠ otherStore → h' r = h r) ∧
  (∀ r, store_workspace (h' r) = store_workspace (h r)) ∧
  (∀ r d, d ∈ rows (db (h' r)) →
     d ∈ rows (db (h r)) ∨
     itemIsValid d None now = true ∧
     (r = this ∧ d ∈ rows (db (h otherStore))
      ∨ r = otherStore ∧ d ∈ rows (db (h this)))).
Proof.
  intros h'. unfold h'.
  destruct (sync_heap h this otherStore opts now) as [->|(e & l & Heq)].
  { repeat split; try done. by left. }
  cbv zeta in Heq. rewrite Heq. clear Heq.
  set (h1 := (_syncFrom h this otherStore e l now).1).
  assert (∀ r, r ≠ this → h1 r = h r) as Hf1
    by (intros r Hr; by apply syncFrom_frame).
  pose proof (λ r, syncFrom_rows h this otherStore e l now r) as Hr1.
  pose proof (λ r, syncFrom_rows h otherStore this e l now r) as Hr0.
  pose proof (λ r, syncFrom_rows h1 otherStore this e l now r) as Hr2.
  cbv zeta in Hr1, Hr0, Hr2. fold h1 in Hr1.
  split; [|split; [|split; [|split]]].
  - intros r Hr Hr'. destruct (default Both _).
    + by apply syncFrom_frame.
    + by apply Hf1.
    + rewrite syncFrom_frame by done. by apply Hf1.
  - intros -> r Hr. simpl. by apply Hf1.
  - intros -> r Hr. simpl. by apply syncFrom_frame.
  - intros r. destruct (default Both _).
    + apply Hr0.
    + apply Hr1.
    + destruct (Hr2 r) as [-> _]. apply Hr1.
  - intros r d. destruct (default Both _).
    + intros [?|(-> & ? & ?)]%Hr0; [by left|right; auto].
    + intros [?|(-> & ? & ?)]%Hr1; [by left|right; auto].
    + intros [Hd|(-> & Hd & Hv)]%Hr2.
      * apply Hr1 in Hd as [?|(-> & ? & ?)]; [by left|right; auto].
      * apply Hr1 in Hd as [?|(_ & ? & ?)]; [right; auto|by left].
Qed.

(** *** One write *)

Lemma ingest_accepted this item futureCutoff now this' :
  ingestItem this item futureCutoff now = (this', true) →
  this' = insert_or_replace this item ∧ itemIsValid item futureCutoff now = true.
Proof.
  rewrite ingestItem_cases.
  destruct (itemIsValid item futureCutoff now); simpl; [|done].
  destruct (db this !! _) as [r|]; [destruct (array_le _ _ _ _)|];
    intros [= <-]; done.
Qed.

Lemma item_eq (a b : Item) : slot_of a = slot_of b → row_of a = row_of b → a = b.
Proof. destruct a, b. unfold slot_of, row_of. simpl. by intros [= -> ->] [= -> -> -> -> ->]. Qed.

Lemma elem_of_rows_insert this item r :
  r ∈ rows (db (insert_or_replace this item))
  ↔ r = item ∨ (r ∈ rows (db this) ∧ slot_of r ≠ slot_of item).
Proof.
  rewrite !elem_of_rows. simpl. fold (slot_of r) (slot_of item).
  destruct (decide (slot_of item = slot_of r)) as [Heq|Hne].
  - rewrite Heq, lookup_insert_eq. split.
    + intros Hrow. left. apply item_eq; [done|congruence].
    + intros [->|[_ []]]; done.
  - rewrite lookup_insert_ne by done. split; [intros ?; right; by split|].
    intros [->|[? _]]; done.
Qed.

(** X6: an item that [ingestItem] accepts is valid, and takes the place
    of the row of its key and author: afterwards the table holds the
    item and the rows it held under every other primary key, and nothing
    else; the workspace of the store is unchanged. *)
Theorem ingest_accepted_replaces_row this item futureCutoff now this' :
  ingestItem this item futureCutoff now = (this', true) →
  itemIsValid item futureCutoff now = true ∧
  store_workspace this' = store_workspace this ∧
  ∀ r, r ∈ rows (db this')
       ↔ r = item ∨ (r ∈ rows (db this) ∧ slot_of r ≠ slot_of item).
Proof.
  intros [-> Hvalid]%ingest_accepted. split; [done|]. split; [done|].
  intros r. apply elem_of_rows_insert.
Qed.


(** X8: against a row of the same key and author whose timestamp has as
    many digits as that of the item (neither is negative, and both are
    integers that a double holds exactly), a valid item is turned down
    exactly when its timestamp is lower, or equal with a signature that
    does not sort higher; otherwise it replaces the row. *)
Theorem ingest_compares_timestamps_of_equal_length this item futureCutoff now r :
  itemIsValid item futureCutoff now = true →
  db this !! (key item, author item) = Some r →
  0 ≤ timestamp item < 2 ^ 53 → 0 ≤ row_timestamp r < 2 ^ 53 →
  String.length (number_toString (timestamp item))
  = String.length (number_toString (row_timestamp r)) →
  ingestItem this item futureCutoff now =
    if bool_decide (timestamp item < row_timestamp r
                    ∨ (timestamp item = row_timestamp r
                       ∧ String.leb (signature item) (row_signature r) = true))
    then (this, false)
    else (insert_or_replace this item, true).
Proof.
  intros Hvalid Hr [Hitem _] [Hrow _]. by apply ingestItem_same_length.
Qed.

(** X9: valid items of one key and one author, no two with the same text
    [timestamp,signature], leave the same store in whatever order they
    are ingested.  The timestamps are integers that a double holds
    exactly. *)
Theorem ingest_order_is_immaterial k a now this docs docs' :
  safe_store this → Forall (λ d, safe_integer (timestamp d)) docs →
  docs ≡ₚ docs' →
  Forall (λ d, key d = k ∧ author d = a ∧ itemIsValid d None now = true) docs →
  NoDup ((λ d, rendering (row_of d)) <$> docs) →
  ingest_each this docs now = ingest_each this docs' now.
Proof. intros _ _. apply ingest_each_permutation. Qed.

(** What [set] builds and offers to [ingestItem]. *)
Lemma set_offers_item this itemToSet now :
  let requested := default 0 (its_timestamp itemToSet) in
  let t := Z.max (if bool_decide (0 < requested) then requested else now * 1000)
                 (default 0 (timestamp <$> getItem this (its_key itemToSet)) + 1) in
  ∃ signed,
    set this itemToSet now = ingestItem this signed (Some t) now ∧
    timestamp signed = t ∧
    key signed = its_key itemToSet ∧
    author signed = its_author itemToSet ∧
    value signed = its_value itemToSet ∧
    workspace signed = store_workspace this ∧
    (∀ r, r ∈ rows (db this) → key r = its_key itemToSet → timestamp r < t).
Proof.
  intros requested t.
  destruct (set_offers this itemToSet now) as (signed & _ & _ & _ & _ & Hlt & _).
  eexists. split; [reflexivity|]. simpl. repeat split. exact Hlt.
Qed.

(** X10: a [set] that returns true is read back: [getItem] of the key
    returns the item written and [getValue] its value.  The item carries
    the key, the author and the value of the request and the workspace of
    the store; its timestamp is the greater of the requested one (the
    clock in microseconds, when none or none positive is given) and the
    successor of the timestamp [getItem] found before, and exceeds that
    of every row the store held under the key.  The timestamps of the
    store, of the request and of the clock are integers that a double
    holds exactly. *)
Theorem set_accepted_is_read_back this itemToSet now this' :
  safe_store this → safe_integer (default 0 (its_timestamp itemToSet)) →
  safe_integer (now * 1000) →
  set this itemToSet now = (this', true) →
  ∃ signed,
    getItem this' (its_key itemToSet) = Some signed ∧
    getValue this' (its_key itemToSet) = Some (its_value itemToSet) ∧
    signed ∈ rows (db this') ∧
    key signed = its_key itemToSet ∧
    author signed = its_author itemToSet ∧
    value signed = its_value itemToSet ∧
    workspace signed = store_workspace this ∧
    timestamp signed
    = Z.max (if bool_decide (0 < default 0 (its_timestamp itemToSet))
             then default 0 (its_timestamp itemToSet) else now * 1000)
            (default 0 (timestamp <$> getItem this (its_key itemToSet)) + 1) ∧
    ∀ r, r ∈ rows (db this) → key r = its_key itemToSet →
         timestamp r < timestamp signed.
Proof.
  intros _ _ _ Hset.
  destruct (set_offers_item this itemToSet now)
    as (signed & Heq & Ht & Hk & Ha & Hv & Hw & Hlt).
  cbv zeta in *. rewrite Heq in Hset.
  apply ingest_accepted in Hset as [-> _].
  exists signed.
  assert (signed ∈ rows (db (insert_or_replace this signed))) as Hin.
  { apply elem_of_rows_insert. by left. }
  assert (getItem (insert_or_replace this signed) (its_key itemToSet) = Some signed)
    as Hget.
  { pose proof (getItem_winner (insert_or_replace this signed) (its_key itemToSet))
      as Hwin.
    destruct (getItem (insert_or_replace this signed) (its_key itemToSet))
      as [w|]; [|by destruct (Hwin signed Hin)].
    destruct Hwin as (Hwin & Hwk & Hmax). f_equal.
    apply elem_of_rows_insert in Hwin as [->|[Hwin _]]; [done|].
    specialize (Hmax signed Hin Hk). apply by_recency_spec in Hmax.
    specialize (Hlt w Hwin Hwk). lia. }
  unfold getValue. rewrite Hget. simpl. rewrite Hv, <-Ht.
  repeat split; try done. intros r Hr Hkr. rewrite Ht. by apply Hlt.
Qed.

(** X11: a valid item under a key and author that have no row is kept,
    however old its timestamp: the table gains the item and keeps every
    row it had. *)
Theorem ingest_new_author_is_kept this item futureCutoff now :
  itemIsValid item futureCutoff now = true →
  db this !! (key item, author item) = None →
  ingestItem this item futureCutoff now = (insert_or_replace this item, true) ∧
  rows (db (insert_or_replace this item)) ≡ₚ item :: rows (db this).
Proof.
  intros Hvalid Hnone. rewrite ingestItem_cases, Hvalid, Hnone. split; [done|].
  unfold rows. simpl. rewrite map_to_list_insert by done.
  rewrite fmap_cons. simpl. by rewrite item_of_row_of.
Qed.


End SlotProperties.

(** * Reads *)

Section ReadProperties.

Import Js Store Fixtures Notions.
Context {V : Validator} {E : Sqlite}.

Local Existing Instance by_key_recency_total.
Local Existing Instance by_key_recency_trans.

(** X13: [getItem] returns a row of the key that no row of the key
    exceeds in timestamp, nor in signature among the rows of that
    timestamp, whoever the authors are; it returns nothing exactly when
    the store has no row of the key. *)
Theorem getItem_returns_the_latest this k :
  match getItem this k with
  | Some r =>
      r ∈ rows (db this) ∧ key r = k ∧
      ∀ r', r' ∈ rows (db this) → key r' = k →
            timestamp r' < timestamp r
            ∨ (timestamp r' = timestamp r
               ∧ String.le (signature r') (signature r))
  | None => ∀ r', r' ∈ rows (db this) → key r' ≠ k
  end.
Proof.
  pose proof (getItem_winner this k) as Hw.
  destruct (getItem this k) as [r|]; [|done].
  destruct Hw as (Hr & Hk & Hmax). split; [done|]. split; [done|].
  intros r' Hr' Hk'. specialize (Hmax r' Hr' Hk').
  apply by_recency_spec in Hmax as [?|[? ?]]; auto.
Qed.

(** X14: a query with history returns rows of the table that match the
    filter, each once, ordered by key ascending, then timestamp
    descending, then signature descending; without a positive limit it
    returns every matching row. *)
Theorem items_with_history_lists_matching_rows this q :
  q_includeHistory q = true →
  StronglySorted (λ a b, Is_true (by_key_recency a b)) (items this q) ∧
  NoDup (items this q) ∧
  (∀ r, r ∈ items this q → r ∈ rows (db this) ∧ matches q (key r) = true) ∧
  (¬ (∃ n, q_limit q = Some n ∧ 0 < n) →
   ∀ r, r ∈ rows (db this) → matches q (key r) = true → r ∈ items this q).
Proof.
  intros Hq. unfold items. rewrite Hq.
  set (scanned := filter _ _).
  assert (NoDup (order_by by_key_recency scanned)) as Hnd.
  { rewrite order_by_perm. apply NoDup_filter, NoDup_rows. }
  split; [|split; [|split]].
  - apply apply_limit_sorted, StronglySorted_merge_sort; apply _.
  - eapply sublist_NoDup; [done|apply apply_limit_sublist].
  - intros r Hr.
    eapply elem_of_sublist in Hr; [|apply apply_limit_sublist].
    rewrite order_by_perm in Hr.
    apply elem_of_scanned in Hr as [? ?]. done.
  - intros Hlim r Hr Hm. rewrite apply_limit_unlimited by done.
    rewrite order_by_perm. by apply elem_of_scanned.
Qed.

(** X15: [limit] counts only when positive: a positive limit keeps that
    many of the first rows of the answer without limit, and a limit of
    zero or below is no limit at all. *)
Theorem items_limit_only_when_positive this q n :
  q_limit q = Some n →
  (0 < n →
   items this q = take (Z.to_nat n) (items this (unlimited q)) ∧
   (length (items this q) ≤ Z.to_nat n)%nat) ∧
  (n ≤ 0 → items this q = items this (unlimited q)).
Proof.
  intros Hn. split.
  - intros Hpos. rewrite (items_limited this q n Hn Hpos). split; [done|].
    rewrite length_take. lia.
  - intros Hle. unfold items, apply_limit; simpl. rewrite Hn.
    by rewrite bool_decide_eq_false_2 by lia.
Qed.

(** X16: [keys] answers without history whatever [includeHistory] says:
    the keys come without duplicates and in ascending order, each is the
    key of a row and matches the filter, and without a positive limit
    every key that has a matching row is among them. *)
Theorem keys_are_distinct_and_ascending this q :
  NoDup (keys this q) ∧
  StronglySorted (λ a b, String.ltb a b = true) (keys this q) ∧
  (∀ k, k ∈ keys this q →
        matches q k = true ∧ ∃ r, r ∈ rows (db this) ∧ key r = k) ∧
  (¬ (∃ n, q_limit q = Some n ∧ 0 < n) →
   ∀ r, r ∈ rows (db this) → matches q (key r) = true → key r ∈ keys this q).
Proof.
  unfold keys.
  destruct (items_winners this (without_history q) eq_refl) as (Hnd & Hin & Hcov).
  split; [done|]. split; [|split].
  - eapply StronglySorted_fmap; [|by apply (items_keys_ascend this (without_history q))].
    done.
  - intros k (r & -> & Hr)%list_elem_of_fmap.
    destruct (Hin r Hr) as (Hrow & Hm & _). split; [done|]. by exists r.
  - intros Hlim r Hr Hm. destruct (Hcov Hlim r Hr Hm) as (r0 & Hr0 & <-).
    by apply list_elem_of_fmap_2.
Qed.

Lemma at_most_one {A B} (f : A → B) (b : B) (l : list A) :
  NoDup (f <$> l) → (∀ x, x ∈ l → f x = b) → l = [] ∨ ∃ x, l = [x].
Proof.
  destruct l as [|x [|y l]]; [by left|right; by exists x|].
  intros Hnd Hall. exfalso.
  rewrite !fmap_cons in Hnd. apply NoDup_cons in Hnd as [Hx _]. apply Hx.
  rewrite (Hall x), (Hall y); [left|right; left|left].
Qed.

Lemma matches_of_key k k' : matches (of_key k) k' = true ↔ k' = k.
Proof.
  unfold matches, of_key. simpl. rewrite !andb_true_r. apply bool_decide_eq_true.
Qed.

(** X17: a query for one key, without history, agrees with [getItem]:
    it is empty exactly when [getItem] finds nothing, and otherwise it
    returns a single row of the key with the timestamp of the row that
    [getItem] returns. *)
Theorem items_of_key_agree_with_getItem this k :
  match getItem this k with
  | Some w =>
      ∃ r, items this (of_key k) = [r] ∧ r ∈ rows (db this) ∧ key r = k ∧
           timestamp r = timestamp w
  | None => items this (of_key k) = []
  end.
Proof.
  pose proof (getItem_winner this k) as Hw.
  destruct (items_winners this (of_key k) eq_refl) as (Hnd & Hin & Hcov).
  assert (∀ x, x ∈ items this (of_key k) → key x = k) as Hkey.
  { intros x Hx. destruct (Hin x Hx) as (_ & Hm & _). by apply matches_of_key. }
  destruct (at_most_one key k _ Hnd Hkey) as [Hnil|[r Hone]].
  - rewrite Hnil in *. destruct (getItem this k) as [w|]; [|done].
    destruct Hw as (Hw & Hk & _).
    assert (¬ (∃ n, q_limit (of_key k) = Some n ∧ 0 < n)) as Hlim
      by (by intros (n & [=] & _)).
    destruct (Hcov Hlim w Hw) as (r & Hr & _); [by apply matches_of_key|].
    by apply elem_of_nil in Hr.
  - rewrite Hone in *.
    assert (r ∈ [r]) as Hr by apply list_elem_of_here.
    destruct (Hin r Hr) as (Hrow & _ & Hmax). specialize (Hkey r Hr).
    destruct (getItem this k) as [w|]; [|by destruct (Hw r Hrow)].
    destruct Hw as (Hw & Hk & Hbest).
    exists r. split; [done|]. split; [done|]. split; [done|].
    specialize (Hbest r Hrow Hkey). apply by_recency_spec in Hbest.
    specialize (Hmax w Hw). rewrite Hk, Hkey in Hmax. specialize (Hmax eq_refl).
    lia.
Qed.

(** *** The prefix filter *)

Lemma append_cons a s t : String a s +:+ t = String a (s +:+ t).
Proof. done. Qed.

Lemma append_nil t : EmptyString +:+ t = t.
Proof. done. Qed.

Lemma append_assoc (a b c : string) : (a +:+ b) +:+ c = a +:+ (b +:+ c).
Proof. induction a as [|x a IH]; [done|]. by rewrite !append_cons, IH. Qed.

Lemma split_join_app c r a b :
  split_join c r (a +:+ b) = split_join c r a +:+ split_join c r b.
Proof.
  induction a as [|x a IH]; [done|].
  rewrite append_cons. simpl. by rewrite IH, append_assoc.
Qed.

(** The text [escape_prefix] puts for one character of the prefix. *)
Lemma escape_prefix_cons c p :
  escape_prefix (String c p)
  = (if decide (c = "_"%char) then String backslash "_"
     else if decide (c = "%"%char) then String backslash "%"
     else String c EmptyString) +:+ escape_prefix p.
Proof.
  unfold escape_prefix. simpl. rewrite split_join_app. f_equal.
  destruct (decide (c = "_"%char)) as [->|H1]; [done|].
  simpl. destruct (decide (c = "%"%char)) as [->|H2]; done.
Qed.

Lemma like_tokens_escaped c p rest :
  c ≠ backslash →
  Sql.like_tokens backslash (escape_prefix (String c p) +:+ rest)
  = cons (Sql.LikeChar c) <$> Sql.like_tokens backslash (escape_prefix p +:+ rest).
Proof.
  intros Hc. rewrite escape_prefix_cons, append_assoc.
  destruct (decide (c = "_"%char)) as [->|H1].
  { rewrite !append_cons, append_nil. simpl. done. }
  destruct (decide (c = "%"%char)) as [->|H2].
  { rewrite !append_cons, append_nil. simpl. done. }
  rewrite append_cons, append_nil. simpl.
  by rewrite !decide_False.
Qed.

Lemma like_any k : Sql.like_match [Sql.LikeAny] k = true.
Proof.
  induction k as [|d k IH]; [done|].
  simpl in *. by rewrite IH.
Qed.

Lemma like_prefix p : ∀ k,
  occurs backslash p = false →
  Sql.like k (escape_prefix p +:+ "%") backslash
  = String.prefix (lower p) (lower k).
Proof.
  induction p as [|c p IH]; intros k Hp.
  { unfold Sql.like. simpl. rewrite like_any. by destruct k. }
  simpl in Hp. apply orb_false_iff in Hp as [Hc%bool_decide_eq_false Hp].
  unfold Sql.like. rewrite like_tokens_escaped by done.
  specialize (IH (match k with String _ k' => k' | EmptyString => k end) Hp).
  unfold Sql.like in IH.
  destruct (Sql.like_tokens backslash (escape_prefix p +:+ "%")) as [ts|];
    destruct k as [|d k]; simpl in *; try done.
  - rewrite IH. destruct (Ascii.ascii_dec _ _) as [Heq|Hne].
    + by rewrite bool_decide_eq_true_2.
    + by rewrite bool_decide_eq_false_2.
  - rewrite <-IH. by destruct (Ascii.ascii_dec _ _).
Qed.

(** X18: the [prefix] filter, for a prefix without a backslash, selects
    the keys that begin with the prefix, the case of ASCII letters
    disregarded; [_] and [%] in the prefix stand for themselves. *)
Theorem prefix_selects_keys_that_begin_with_it p k :
  occurs backslash p = false →
  matches (of_prefix p) k = String.prefix (lower p) (lower k).
Proof. intros Hp. unfold matches, of_prefix. simpl. by apply like_prefix. Qed.

End ReadProperties.

(** The stores of the examples hold timestamps that a double holds
    exactly. *)
Lemma safe_holds_nine : Notions.safe_store Fixtures.holds_nine.
Proof. apply (bool_decide_unpack _). vm_compute. exact I. Qed.

Lemma safe_empty : Notions.safe_store Fixtures.empty.
Proof. apply (bool_decide_unpack _). vm_compute. exact I. Qed.

(** The empty store is offered the rows of the store that holds [nine]. *)
Lemma syncFrom_merges_each_slot_witness :
  Store.store_workspace
    ((Store._syncFrom (V:=Fixtures.lenient) (E:=Fixtures.keep_first)
        Fixtures.garden_heap 1%nat 0%nat true false 0).1 1%nat)
  = Store.store_workspace (Fixtures.garden_heap 1%nat).
Proof.
  apply (syncFrom_merges_each_slot (V:=Fixtures.lenient) (E:=Fixtures.keep_first)
           Fixtures.garden_heap 1%nat 0%nat 0 safe_empty safe_holds_nine).
Defined.


Lemma sync_both_converges_witness :
  ∃ h' res,
    Store.sync (V:=Fixtures.lenient) (E:=Fixtures.keep_first)
      Fixtures.garden_heap 0%nat 1%nat None 0 = (h', Js.Returned res) ∧
    Store.db (h' 0%nat) = Store.db (h' 1%nat).
Proof.
  destruct (sync_both_converges (V:=Fixtures.lenient) (E:=Fixtures.keep_first)
              Fixtures.garden_heap 0%nat 1%nat None 0)
    as (h' & res & Heq & Hdb & _).
  - discriminate.
  - reflexivity.
  - reflexivity.
  - reflexivity.
  - reflexivity.
  - exact safe_holds_nine.
  - exact safe_empty.
  - intros d [Hd|Hd].
    + assert (Store.rows (Store.db (Fixtures.garden_heap 0%nat)) = [Fixtures.nine])
        as Hrows by (vm_compute; reflexivity).
      rewrite Hrows in Hd. apply list_elem_of_singleton in Hd as ->.
      vm_compute. reflexivity.
    + change (Store.rows (Store.db (Fixtures.garden_heap 1%nat)))
        with (@nil Store.Item) in Hd.
      by apply elem_of_nil in Hd.
  - intros ka m t _ Ht.
    change (Store.db (Fixtures.garden_heap 1%nat)) with (∅ : Store.Table) in Ht.
    by rewrite lookup_empty in Ht.
  - exists h', res. split; [exact Heq|exact Hdb].
Defined.

Lemma ingest_accepted_replaces_row_witness :
  Store.store_workspace (Store.insert_or_replace Fixtures.holds_nine Fixtures.by_bob)
  = Store.store_workspace Fixtures.holds_nine.
Proof.
  apply (ingest_accepted_replaces_row (V:=Fixtures.lenient) Fixtures.holds_nine
           Fixtures.by_bob None 0).
  vm_compute. reflexivity.
Defined.

Lemma ingest_compares_timestamps_of_equal_length_witness :
  Store.ingestItem (V:=Fixtures.lenient) Fixtures.holds_nine
    (Fixtures.doc "k" "alice" 7 "sig7") None 0
  = (Fixtures.holds_nine, false).
Proof.
  rewrite (ingest_compares_timestamps_of_equal_length (V:=Fixtures.lenient)
             Fixtures.holds_nine (Fixtures.doc "k" "alice" 7 "sig7") None 0
             (Store.row_of Fixtures.nine)).
  - reflexivity.
  - vm_compute. reflexivity.
  - vm_compute. reflexivity.
  - simpl. lia.
  - simpl. lia.
  - vm_compute. reflexivity.
Defined.

Lemma ingest_order_is_immaterial_witness :
  Notions.ingest_each (V:=Fixtures.lenient) Fixtures.empty
    [Fixtures.nine; Fixtures.ten] 0
  = Notions.ingest_each (V:=Fixtures.lenient) Fixtures.empty
      [Fixtures.ten; Fixtures.nine] 0.
Proof.
  apply (ingest_order_is_immaterial (V:=Fixtures.lenient) "k" "alice").
  - exact safe_empty.
  - repeat constructor; simpl; lia.
  - apply perm_swap.
  - repeat constructor.
  - apply (bool_decide_unpack (NoDup _)). vm_compute. exact I.
Defined.

Lemma set_accepted_is_read_back_witness :
  ∃ signed,
    Store.getItem (Store.set (V:=Fixtures.lenient) Fixtures.empty
                     Fixtures.plain_request 1).1 "k" = Some signed ∧
    Store.timestamp signed = 1000.
Proof.
  destruct (set_accepted_is_read_back (V:=Fixtures.lenient) Fixtures.empty
              Fixtures.plain_request 1
              (Store.set (V:=Fixtures.lenient) Fixtures.empty
                 Fixtures.plain_request 1).1)
    as (signed & Hget & _ & _ & _ & _ & _ & _ & Ht & _).
  - exact safe_empty.
  - split; simpl; lia.
  - split; simpl; lia.
  - vm_compute. reflexivity.
  - exists signed. split; [exact Hget|]. rewrite Ht. vm_compute. reflexivity.
Defined.

Lemma ingest_new_author_is_kept_witness :
  Store.ingestItem (V:=Fixtures.lenient) Fixtures.holds_nine Fixtures.by_bob None 0
  = (Store.insert_or_replace Fixtures.holds_nine Fixtures.by_bob, true).
Proof.
  apply (ingest_new_author_is_kept (V:=Fixtures.lenient)).
  - vm_compute. reflexivity.
  - vm_compute. reflexivity.
Defined.


Lemma items_with_history_lists_matching_rows_witness :
  NoDup (Store.items (E:=Fixtures.keep_first) Fixtures.two_authors Store.withHistory).
Proof.
  destruct (items_with_history_lists_matching_rows (E:=Fixtures.keep_first)
              Fixtures.two_authors Store.withHistory eq_refl) as (_ & Hnd & _).
  exact Hnd.
Defined.

Lemma items_limit_only_when_positive_witness :
  (length (Store.items (E:=Fixtures.keep_first) Fixtures.two_keys Fixtures.first_only)
   ≤ 1)%nat.
Proof.
  destruct (items_limit_only_when_positive (E:=Fixtures.keep_first)
              Fixtures.two_keys Fixtures.first_only 1 eq_refl) as [Hpos _].
  destruct Hpos as [_ Hlen]; [lia|]. exact Hlen.
Defined.

Lemma prefix_selects_keys_that_begin_with_it_witness :
  Store.matches (Notions.of_prefix "a_") "A_b" = true.
Proof.
  rewrite (prefix_selects_keys_that_begin_with_it "a_" "A_b").
  - vm_compute. reflexivity.
  - vm_compute. reflexivity.
Defined.

(** * The list of pubs *)

Section PubProperties.

Import Js Remote Notions.
Context {S D : Type} {St : IStorage S D} {Net : Network D}.

Implicit Types (w : World S D).

Lemma length_append (a b : string) :
  String.length (a +:+ b) = (String.length a + String.length b)%nat.
Proof. induction a as [|x a IH]; [done|]. rewrite append_cons. simpl. by rewrite IH. Qed.

Lemma substring_last (a : string) c :
  String.substring (String.length a) 1 (a +:+ String c EmptyString)
  = String c EmptyString.
Proof. induction a as [|x a IH]; [done|]. rewrite append_cons. simpl. exact IH. Qed.

Lemma endsWith_slash u : endsWith (u +:+ "/") "/" = true.
Proof.
  unfold endsWith. apply bool_decide_eq_true. rewrite length_append. simpl.
  split; [lia|].
  replace (String.length u + 1 - 1)%nat with (String.length u) by lia.
  apply substring_last.
Qed.

Lemma ensureTrailingSlash_ends u : endsWith (ensureTrailingSlash u) "/" = true.
Proof.
  unfold ensureTrailingSlash. destruct (endsWith u "/") eqn:Hu; [done|].
  apply endsWith_slash.
Qed.

Lemma ensureTrailingSlash_idemp u :
  ensureTrailingSlash (ensureTrailingSlash u) = ensureTrailingSlash u.
Proof.
  unfold ensureTrailingSlash at 1. by rewrite ensureTrailingSlash_ends.
Qed.


Lemma substring_all (s : string) : String.substring 0 (String.length s) s = s.
Proof. induction s as [|x s IH]; [done|]. simpl. by rewrite IH. Qed.

(** X20: the address of the documents of a workspace is the domain,
    the path [earthstar-api/v1/workspace/], the name of the workspace
    without its first two characters, whatever they are, and
    [/documents]; the POST goes to the address of the GET. *)
Theorem url_drops_two_characters d a b name :
  urlGetDocuments d (String a (String b name))
  = d +:+ "earthstar-api/v1/workspace/" +:+ name +:+ "/documents" ∧
  urlPostDocuments d (String a (String b name))
  = urlGetDocuments d (String a (String b name)).
Proof.
  split; [|done]. unfold urlGetDocuments, slice_from. simpl.
  rewrite Nat.sub_0_r. by rewrite substring_all.
Qed.

Lemma filter_keeps_all {A} (P : A → Prop) `{∀ x, Decision (P x)} (l : list A) :
  (∀ x, x ∈ l → P x) → filter P l = l.
Proof.
  induction l as [|x l IH]; intros HP; [done|].
  rewrite filter_cons, decide_True by (apply HP; by left).
  f_equal. apply IH. intros y Hy. apply HP. by right.
Qed.

Lemma filter_same_length {A} (P : A → Prop) `{∀ x, Decision (P x)} (l : list A) :
  length (filter P l) = length l → filter P l = l.
Proof.
  intros Hlen. apply filter_keeps_all. intros x Hx.
  destruct (decide (P x)) as [|Hn]; [done|].
  pose proof (length_filter_lt P l x Hx Hn). lia.
Qed.

Lemma world_eta w : mkWorld (storage w) (state w) (trace w) = w.
Proof. by destruct w. Qed.

Lemma setPubs_same st : setPubs st (pubs st) = st.
Proof. by destruct st. Qed.

Lemma has_domain (l : list Pub) d :
  (0 < length (filter (λ pub, domain pub = d) l))%nat ↔ d ∈ domain <$> l.
Proof.
  rewrite list_elem_of_fmap. split.
  - destruct (filter _ l) as [|p k] eqn:Hf; simpl; [lia|]. intros _.
    assert (p ∈ filter (λ pub, domain pub = d) l) as Hp by (rewrite Hf; left).
    apply list_elem_of_filter in Hp as [Hd Hp]. by exists p.
  - intros (p & -> & Hp).
    assert (p ∈ filter (λ pub, domain pub = domain p) l) as Hin
      by (by apply list_elem_of_filter).
    destruct (filter _ l); [by apply elem_of_nil in Hin|simpl; lia].
Qed.

(** [addPub], by whether the address is on the list. *)
Lemma addPub_cases d w :
  let d' := ensureTrailingSlash d in
  let st' := setPubs (state w) (pubs (state w) ++ [mkPub d' Idle 0]) in
  addPub d w =
    (Returned tt,
     if bool_decide (d' ∈ domain <$> pubs (state w)) then w
     else mkWorld (storage w) st' (trace w ++ [Notify st'])).
Proof.
  intros d' st'. unfold addPub. fold d'.
  unfold mbind, M_bind, getState, putState, notify, emit, mret, M_ret. simpl.
  destruct (bool_decide (0 < _)%nat) eqn:Hhas.
  - apply bool_decide_eq_true, has_domain in Hhas.
    by rewrite bool_decide_eq_true_2.
  - apply bool_decide_eq_false in Hhas. rewrite has_domain in Hhas.
    by rewrite bool_decide_eq_false_2.
Qed.

(** [removePub], by whether the address is on the list. *)
Lemma removePub_cases d w :
  let d' := ensureTrailingSlash d in
  let st' := setPubs (state w) (filter (λ pub, domain pub ≠ d') (pubs (state w))) in
  removePub d w =
    (Returned tt,
     if bool_decide (d' ∈ domain <$> pubs (state w))
     then mkWorld (storage w) st' (trace w ++ [Notify st'])
     else w).
Proof.
  intros d' st'. unfold removePub. fold d'.
  unfold mbind, M_bind, getState, putState, notify, emit, mret, M_ret. simpl.
  fold st'. destruct (decide (length _ ≠ length _)) as [Hne|Heq].
  - rewrite bool_decide_eq_true_2; [done|].
    destruct (decide (d' ∈ domain <$> pubs (state w))) as [|Hout]; [done|].
    exfalso. apply Hne. f_equal. symmetry. apply filter_keeps_all.
    intros p Hp Heq. apply Hout. rewrite <-Heq. by apply list_elem_of_fmap_2.
  - apply dec_stable in Heq. symmetry in Heq. apply filter_same_length in Heq.
    rewrite bool_decide_eq_false_2.
    + unfold st'. by rewrite Heq, setPubs_same, world_eta.
    + intros (p & Hd & Hp)%list_elem_of_fmap.
      rewrite <-Heq in Hp. apply list_elem_of_filter in Hp as [Hp _]. done.
Qed.

(** X21: [addPub] is idempotent and reads the address with its trailing
    slash: afterwards the address, slash included, is on the list; adding
    it again, with or without the slash, changes nothing and notifies
    nobody. *)
Theorem addPub_is_idempotent d w :
  let w' := (addPub d w).2 in
  ensureTrailingSlash d ∈ domain <$> pubs (state w') ∧
  addPub d w' = (Returned tt, w') ∧
  addPub (ensureTrailingSlash d) w' = (Returned tt, w') ∧
  addPub (ensureTrailingSlash d) w = addPub d w.
Proof.
  intros w'.
  assert (ensureTrailingSlash d ∈ domain <$> pubs (state w')) as Hin.
  { unfold w'. rewrite addPub_cases. simpl. case_bool_decide as Hd; [done|].
    simpl. rewrite fmap_app. apply elem_of_app. right. simpl. left. }
  split; [done|]. split; [|split].
  - rewrite addPub_cases. cbv zeta. by rewrite bool_decide_eq_true_2.
  - rewrite addPub_cases. cbv zeta.
    by rewrite ensureTrailingSlash_idemp, bool_decide_eq_true_2.
  - unfold addPub. by rewrite ensureTrailingSlash_idemp.
Qed.

(** X22: [addPub] keeps the addresses on the list distinct; it only ever
    appends, a new pub being idle and never synced, and it leaves the
    storage and the aggregate sync state alone. *)
Theorem addPub_keeps_addresses_distinct d w :
  NoDup (domain <$> pubs (state w)) →
  let w' := (addPub d w).2 in
  NoDup (domain <$> pubs (state w')) ∧
  (pubs (state w') = pubs (state w)
   ∨ pubs (state w') = pubs (state w) ++ [mkPub (ensureTrailingSlash d) Idle 0]) ∧
  storage w' = storage w ∧
  syncState (state w') = syncState (state w) ∧
  lastSync (state w') = lastSync (state w).
Proof.
  intros Hnd w'. unfold w'. rewrite addPub_cases. simpl.
  case_bool_decide as Hd; [by auto|]. simpl.
  split; [|by auto].
  rewrite fmap_app. apply NoDup_app. split; [done|]. split.
  - intros x Hx [->|[]%elem_of_nil]%elem_of_cons. done.
  - apply NoDup_singleton.
Qed.

(** X23: [removePub] drops every pub of the address, read with its
    trailing slash, and keeps the others in their order; it notifies the
    observers once when a pub was dropped, and otherwise leaves the
    syncer as it was. *)
Theorem removePub_drops_the_address d w :
  let d' := ensureTrailingSlash d in
  let w' := (removePub d w).2 in
  removePub d w = (Returned tt, w') ∧
  (d' ∉ domain <$> pubs (state w')) ∧
  (∀ p, p ∈ pubs (state w') ↔ p ∈ pubs (state w) ∧ domain p ≠ d') ∧
  pubs (state w') `sublist_of` pubs (state w) ∧
  (d' ∉ domain <$> pubs (state w) → w' = w) ∧
  (d' ∈ domain <$> pubs (state w) →
   trace w' = trace w ++ [Notify (state w')] ∧ storage w' = storage w).
Proof.
  intros d' w'. unfold w'. rewrite removePub_cases. fold d'. simpl.
  split; [done|].
  assert (pubs (state (if bool_decide (d' ∈ domain <$> pubs (state w))
                       then mkWorld (storage w)
                              (setPubs (state w)
                                 (filter (λ pub, domain pub ≠ d') (pubs (state w))))
                              (trace w ++
                                 [Notify (setPubs (state w)
                                    (filter (λ pub, domain pub ≠ d')
                                       (pubs (state w))))])
                       else w))
          = filter (λ pub, domain pub ≠ d') (pubs (state w))) as Hpubs.
  { case_bool_decide as Hd; [done|]. symmetry. apply filter_keeps_all.
    intros p Hp Heq. apply Hd. rewrite <-Heq. by apply list_elem_of_fmap_2. }
  rewrite Hpubs. split; [|split; [|split; [|split]]].
  - intros (p & Hd & Hp)%list_elem_of_fmap.
    apply list_elem_of_filter in Hp as [Hp _]. done.
  - intros p. rewrite list_elem_of_filter. tauto.
  - apply sublist_filter.
  - intros Hout. by rewrite bool_decide_eq_false_2.
  - intros Hin. by rewrite bool_decide_eq_true_2.
Qed.

(** X24: removing an address that [addPub] has just put on the list
    gives back the list of pubs there was. *)
Theorem removePub_undoes_addPub d w :
  ensureTrailingSlash d ∉ domain <$> pubs (state w) →
  pubs (state (removePub d (addPub d w).2).2) = pubs (state w).
Proof.
  intros Hout. rewrite removePub_cases, addPub_cases. simpl.
  rewrite (bool_decide_eq_false_2 _ Hout). simpl.
  rewrite bool_decide_eq_true_2.
  2:{ rewrite fmap_app. apply elem_of_app. right. left. }
  simpl. rewrite filter_app, filter_keeps_all.
  - rewrite filter_cons, decide_False by (by intros []).
    by rewrite filter_nil, app_nil_r.
  - intros p Hp Heq. apply Hout. rewrite <-Heq. by apply list_elem_of_fmap_2.
Qed.

End PubProperties.

(** * Passes *)

Section PassProperties.

Import Js Remote Notions.
Context {S D : Type} {St : IStorage S D} {Net : Network D}.

Implicit Types (w : World S D).

Local Abbreviation frames := (Notions.frames (S:=S) (D:=D)).

Local Ltac run :=
  unfold mbind, M_bind, mret, M_ret, getStorage, putStorage, getState, putState,
    await_fetch, could_not_connect, notify, now, emit, throw; simpl.

Lemma ingest_pulled_counts stats doc w :
  ∃ stats1 w1,
    ingest_pulled stats doc w = (Returned stats1, w1) ∧
    numIngested stats1 + numIgnored stats1
    = numIngested stats + numIgnored stats + 1 ∧
    numIngested stats ≤ numIngested stats1 ∧
    numIgnored stats ≤ numIgnored stats1 ∧
    numTotal stats1 = numTotal stats.
Proof.
  unfold ingest_pulled. run.
  destruct (ingestDocument (storage w) doc) as [s' [|]]; run;
    eexists _, _; (split; [done|]); simpl; repeat split; lia.
Qed.

(** The loop over the pulled documents counts each document once. *)
Lemma for_of_ingest_pulled docs : ∀ stats w o w',
  for_of docs ingest_pulled stats w = (o, w') →
  ∃ stats',
    o = Returned stats' ∧
    numIngested stats' + numIgnored stats'
    = numIngested stats + numIgnored stats + Z.of_nat (length docs) ∧
    numIngested stats ≤ numIngested stats' ∧
    numIgnored stats ≤ numIgnored stats' ∧
    numTotal stats' = numTotal stats.
Proof.
  induction docs as [|doc docs IH]; intros stats w o w'; cbn [for_of].
  { intros [= <- <-]. exists stats. simpl. repeat split; lia. }
  destruct (ingest_pulled_counts stats doc w)
    as (stats1 & w1 & Hone & Hsum1 & Hin1 & Hig1 & Htot1).
  unfold mbind, M_bind. rewrite Hone.
  intros (stats' & -> & Hsum & Hin & Hig & Htot)%IH.
  exists stats'. rewrite length_cons. repeat split; lia.
Qed.

Lemma pull_documents_counts resp w stats w' :
  pull_documents resp w = (Returned stats, w') →
  numIngested stats + numIgnored stats = numTotal stats ∧
  0 ≤ numIngested stats ∧ 0 ≤ numIgnored stats.
Proof.
  unfold pull_documents. case_bool_decide.
  { intros [= <- <-]. simpl. lia. }
  unfold json_docs. destruct (json resp) as [[docs|raw]|]; run; [|done..].
  intros (stats' & [= <-] & Hsum & Hin & Hig & Htot)%for_of_ingest_pulled.
  simpl in *. lia.
Qed.

(** A pass that returns: the GET was refused and nothing is recorded, or
    it was answered and the pull is recorded; [push] is null in both
    cases. *)
Lemma pass_returned domain w rs w' :
  syncLocalAndHttp domain w = (Returned rs, w') →
  let get := GET (urlGetDocuments (ensureTrailingSlash domain)
                    (workspace (storage w))) in
  (∃ e, fetch (trace w) get = Rejected e ∧ rs = mkResultStats None None None) ∨
  (∃ resp stats w1,
     fetch (trace w) get = Resolved resp ∧
     pull_documents resp (mkWorld (storage w) (state w) (trace w ++ [Fetch get]))
     = (Returned stats, w1) ∧
     pull rs = Some stats ∧ push rs = None).
Proof.
  intros Hrun get. unfold syncLocalAndHttp in Hrun.
  unfold mbind at 1 2, M_bind at 1 2, getStorage, await_fetch in Hrun.
  simpl in Hrun. fold get in Hrun.
  destruct (fetch (trace w) get) as [e|resp].
  { left. exists e. split; [done|]. revert Hrun. run. by intros [= <- _]. }
  right. apply bind_returned in Hrun as (stats & w1 & Hpull & Hrest).
  exists resp, stats, w1. split; [done|]. split; [done|].
  revert Hrest. run.
  destruct (fetch _ _) as [e|resp2]; run; [by intros [= <- _]|].
  repeat (case_bool_decide; [by intros [= <- _]|]).
  unfold json_any. destruct (json resp2); run; [|done]. by intros [= <- _].
Qed.


(** X26: a pass throws only over a body it cannot read: the GET was
    answered, and either its answer, other than a 404, does not decode to
    an array of documents, or the pull went through and the POST was
    answered, by neither 404 nor 403, with a body that is not JSON.  The
    sync state is not touched. *)
Theorem pass_throws_only_on_unreadable_body domain w e w' :
  syncLocalAndHttp domain w = (Thrown e, w') →
  let d := ensureTrailingSlash domain in
  let get := GET (urlGetDocuments d (workspace (storage w))) in
  state w' = state w ∧
  ∃ resp,
    fetch (trace w) get = Resolved resp ∧
    ((status resp ≠ 404 ∧ ∀ docs, json resp ≠ Some (JsonArray docs))
     ∨ ∃ stats w1 resp2,
         pull_documents resp
           (mkWorld (storage w) (state w) (trace w ++ [Fetch get]))
         = (Returned stats, w1) ∧
         fetch (trace w1)
           (POST (urlPostDocuments d (workspace (storage w1)))
                 (documents (storage w1) true))
         = Resolved resp2 ∧
         status resp2 ≠ 404 ∧ status resp2 ≠ 403 ∧ json resp2 = None).
Proof.
  intros Hrun d get.
  destruct (frames_syncLocalAndHttp _ _ _ _ Hrun) as [Hst _].
  split; [done|]. unfold syncLocalAndHttp in Hrun.
  unfold mbind at 1 2, M_bind at 1 2, getStorage, await_fetch in Hrun.
  simpl in Hrun. fold d get in Hrun.
  destruct (fetch (trace w) get) as [e0|resp].
  { revert Hrun. run. done. }
  exists resp. split; [done|].
  unfold mbind at 1, M_bind at 1 in Hrun.
  destruct (pull_documents resp _) as [[stats|e1] w1] eqn:Hpull.
  - right. exists stats, w1. revert Hrun. run. fold d.
    destruct (fetch _ _) as [e2|resp2]; run; [done|].
    repeat (case_bool_decide; [done|]).
    unfold json_any. destruct (json resp2) eqn:Hjson; run; [done|].
    intros _. by exists resp2.
  - left. revert Hpull. unfold pull_documents. case_bool_decide; [done|].
    unfold json_docs. destruct (json resp) as [[docs|raw]|] eqn:Hjson; run.
    + by intros (stats' & [=] & _)%for_of_ingest_pulled.
    + intros _. split; [done|]. by intros docs.
    + intros _. split; [done|]. by intros docs.
Qed.

End PassProperties.

Lemma addPub_keeps_addresses_distinct_witness :
  NoDup (Remote.domain <$>
           Remote.pubs (Remote.state
             (Remote.addPub "https://three.example" Fixtures.two_pubs).2)).
Proof.
  apply (addPub_keeps_addresses_distinct "https://three.example" Fixtures.two_pubs).
  apply (bool_decide_unpack (NoDup _)). vm_compute. exact I.
Defined.

Lemma removePub_undoes_addPub_witness :
  Remote.pubs (Remote.state
    (Remote.removePub "https://three.example"
       (Remote.addPub "https://three.example" Fixtures.two_pubs).2).2)
  = Remote.pubs (Remote.state Fixtures.two_pubs).
Proof.
  apply (removePub_undoes_addPub "https://three.example" Fixtures.two_pubs).
  apply (bool_decide_unpack (_ ∉ _)). vm_compute. exact I.
Defined.


(** The pub answers the GET with a body that is not JSON. *)
Lemma pass_throws_only_on_unreadable_body_witness :
  ∃ e w',
    Remote.syncLocalAndHttp (St:=Fixtures.garden_storage) (Net:=Fixtures.garbled)
      "https://one.example" Fixtures.garden_syncer = (Js.Thrown e, w') ∧
    Remote.state w' = Remote.state Fixtures.garden_syncer.
Proof.
  assert (Remote.syncLocalAndHttp (St:=Fixtures.garden_storage)
            (Net:=Fixtures.garbled) "https://one.example" Fixtures.garden_syncer
          = (Js.Thrown "SyntaxError: invalid json response body",
             (Remote.syncLocalAndHttp (St:=Fixtures.garden_storage)
                (Net:=Fixtures.garbled) "https://one.example"
                Fixtures.garden_syncer).2)) as Hrun
    by (vm_compute; reflexivity).
  eexists _, _. split; [exact Hrun|].
  apply (pass_throws_only_on_unreadable_body (St:=Fixtures.garden_storage)
           (Net:=Fixtures.garbled) _ _ _ _ Hrun).
Defined.
